(** * codeAI: the content-aggregation and prompt-budgeting pipeline

    A shallow embedding of the two API routes of the repository,

    - [src/app/api/analyze/route.ts]           (module [Analyze]),
    - [src/app/api/github/list-files/route.ts] (module [ListFiles]),

    together with the part of the JavaScript platform they rely on
    (module [JS] for strings, class [Platform] for the URL parser, the
    network, the model service and the environment). *)

From Stdlib Require Import ZArith NArith String Ascii List Lia Bool.
From stdpp Require Import base list gmap pretty.

Local Open Scope Z_scope.

(* ===================================================================== *)
(** * JavaScript strings *)
(* ===================================================================== *)

(** A JavaScript string is a sequence of UTF-16 code units; [length],
    [slice], [lastIndexOf], [startsWith] ... all count code units.  What
    the source calls a character is one code unit. *)
Abbreviation jsstring := (list N).

Module JS.

(** An ASCII literal of the source as a JavaScript string. *)
Definition js (s : string) : jsstring :=
  List.map N_of_ascii (list_ascii_of_string s).

Definition LF : N := 10%N.

Definition is_high_surrogate (c : N) : bool :=
  ((0xD800 <=? c) && (c <=? 0xDBFF))%N.
Definition is_low_surrogate (c : N) : bool :=
  ((0xDC00 <=? c) && (c <=? 0xDFFF))%N.

(** [new TextEncoder().encode(str).length]: the number of bytes of the
    UTF-8 encoding of [str].  A surrogate pair is one code point of four
    bytes; a lone surrogate is encoded as U+FFFD, three bytes. *)
Fixpoint utf8_length (s : jsstring) : Z :=
  match s with
  | [] => 0
  | c :: rest =>
      if (c <? 0x80)%N then 1 + utf8_length rest
      else if (c <? 0x800)%N then 2 + utf8_length rest
      else if is_high_surrogate c then
        match rest with
        | d :: rest' =>
            if is_low_surrogate d then 4 + utf8_length rest'
            else 3 + utf8_length rest
        | [] => 3
        end
      else 3 + utf8_length rest
  end.

(** [s.length] as a number. *)
Definition len (s : jsstring) : Z := Z.of_nat (length s).

(** The index clamping of [String.prototype.slice] and
    [Array.prototype.slice]: a negative index counts from the end. *)
Definition clamp_index (n rel : Z) : Z :=
  if rel <? 0 then Z.max (n + rel) 0 else Z.min rel n.

(** [xs.slice(start, end)]; [None] for an omitted [end].  Serves strings
    and arrays alike.  JavaScript's [-0] is [0] here, as it is for
    [slice]: [s.slice(-0)] is the whole of [s]. *)
Definition slice {A} (xs : list A) (start : Z) (end_ : option Z) : list A :=
  let n := Z.of_nat (length xs) in
  let from := clamp_index n start in
  let to := match end_ with Some e => clamp_index n e | None => n end in
  take (Z.to_nat (to - from)) (drop (Z.to_nat from) xs).

(** [s.startsWith(p)] *)
Fixpoint startsWith (s p : jsstring) : bool :=
  match p, s with
  | [], _ => true
  | _ :: _, [] => false
  | a :: p', b :: s' => (a =? b)%N && startsWith s' p'
  end.

Definition string_eqb (s t : jsstring) : bool :=
  (length s =? length t)%nat && startsWith s t.

(** [s.endsWith(p)] *)
Definition endsWith (s p : jsstring) : bool :=
  let start := len s - len p in
  if start <? 0 then false else string_eqb (drop (Z.to_nat start) s) p.

(** [s.includes(p)] *)
Fixpoint includes (s p : jsstring) : bool :=
  startsWith s p ||
  match s with
  | [] => false
  | _ :: s' => includes s' p
  end.

(** [s.lastIndexOf(p)], scanning the suffixes of [s]; [i] is the index at
    which [s] starts in the whole string.  [-1] when [p] does not occur. *)
Fixpoint lastIndexOf_from (s p : jsstring) (i : Z) : Z :=
  match s with
  | [] => if startsWith [] p then i else -1
  | _ :: s' =>
      let r := lastIndexOf_from s' p (i + 1) in
      if 0 <=? r then r else if startsWith s p then i else -1
  end.

Definition lastIndexOf (s p : jsstring) : Z := lastIndexOf_from s p 0.

(** [s.split(sep)] for a separator of one code unit. *)
Fixpoint split (sep : N) (s : jsstring) : list jsstring :=
  match s with
  | [] => [[]]
  | c :: s' =>
      if (c =? sep)%N then [] :: split sep s'
      else match split sep s' with
           | h :: t => (c :: h) :: t
           | [] => [[c]]
           end
  end.

(** [xs.join(sep)] *)
Fixpoint join (sep : jsstring) (xs : list jsstring) : jsstring :=
  match xs with
  | [] => []
  | [x] => x
  | x :: rest => x ++ sep ++ join sep rest
  end.

(** Truthiness of a string: [Boolean(s)], [!s], [s || d], [s && t]. *)
Definition truthy (s : jsstring) : bool :=
  match s with [] => false | _ => true end.

(** [s || d] where [s] may be [undefined]. *)
Definition or_else (s : option jsstring) (d : jsstring) : jsstring :=
  match s with
  | Some v => if truthy v then v else d
  | None => d
  end.

(** [`${n}`] for an integral number. *)
Definition number_to_string (n : Z) : jsstring := js (pretty n).

(** ASCII lower-casing, the restriction of [toLowerCase] to ASCII text. *)
Definition ascii_lower_unit (c : N) : N :=
  if ((65 <=? c) && (c <=? 90))%N then (c + 32)%N else c.
Definition ascii_lower (s : jsstring) : jsstring := List.map ascii_lower_unit s.
Definition is_ascii (s : jsstring) : Prop := Forall (fun c => (c < 128)%N) s.

End JS.

(* ===================================================================== *)
(** * Thrown errors *)
(* ===================================================================== *)

(** The outcome of an expression that may throw.  Every value thrown in
    the two routes is an [Error] object, of which only [message] is ever
    read. *)
Inductive Result (A : Type) : Type :=
| Ok (a : A)
| Throw (message : jsstring).
Arguments Ok {A} a.
Arguments Throw {A} message.

(** [e?.message || fallback] in a [catch] clause. *)
Definition message_or (message fallback : jsstring) : jsstring :=
  if JS.truthy message then message else fallback.

(* ===================================================================== *)
(** * The platform *)
(* ===================================================================== *)

(** The two properties of a parsed [URL] that the source reads. *)
Record URL := { hostname : jsstring; pathname : jsstring }.

(** A [fetch] call: the address and the request headers.  The option
    [cache: "no-store"] is the same in every call and left out. *)
Record Request := {
  req_url : jsstring;
  req_headers : list (jsstring * jsstring)
}.

(** What the source reads of a [fetch] response: [res.ok], [res.status],
    [await res.text()] and [await res.json()]; the last two may reject. *)
Record HttpResponse (Json : Type) := {
  res_ok : bool;
  res_status : Z;
  res_text : Result jsstring;
  res_json : Result Json
}.
Arguments res_ok {Json} _.
Arguments res_status {Json} _.
Arguments res_text {Json} _.
Arguments res_json {Json} _.

(** The shapes at which the source reads JSON bodies:
    [json?.content] and [json?.encoding] in [ghGetContent];
    [RepoInfo] and [TreeResp] in the list-files route. *)
Record ContentJson := {
  json_content : option jsstring;
  json_encoding : option jsstring
}.
Record RepoInfo := { default_branch : jsstring }.
Record TreeEntry := { entry_path : jsstring; entry_type : jsstring }.
Record TreeResp := { tree_truncated : bool; tree : list TreeEntry }.

(** Everything the routes take from outside the repository: the WHATWG
    URL parser, [String.prototype.toLowerCase] (known here only by its
    action on ASCII text), [encodeURIComponent] (which throws on a lone
    surrogate), base64 decoding, the process environment, the network
    behind [fetch] and the model service behind
    [ai.models.generateContent].  [NetState] is the state of the outside
    world; a call may change it, so two fetches of one address need not
    agree. *)
Class Platform := {
  NetState : Type;
  Json : Type;
  URL_new : jsstring -> Result URL;
  toLowerCase : jsstring -> jsstring;
  toLowerCase_ascii : forall s, JS.is_ascii s -> toLowerCase s = JS.ascii_lower s;
  encodeURIComponent : jsstring -> Result jsstring;
  base64_to_utf8 : jsstring -> jsstring;
  GITHUB_TOKEN : option jsstring;
  fetch_step : Request -> NetState -> Result (HttpResponse Json) * NetState;
  generate_step : jsstring -> NetState -> Result (option jsstring) * NetState;
  as_ContentJson : Json -> ContentJson;
  as_RepoInfo : Json -> RepoInfo;
  as_TreeResp : Json -> TreeResp
}.

(** Calls that leave the process, in the order they are made. *)
Inductive Event :=
| EvFetch (r : Request)
| EvGenerate (prompt : jsstring).

Record World `{Platform} := { net : NetState; trace : list Event }.

(** An [async] computation: it runs in a world, changes it, and returns
    or throws.  A throw keeps the changes made so far. *)
Definition IO `{Platform} (A : Type) : Type := World -> Result A * World.

Section IO.
Context `{Platform}.

Definition ret {A} (a : A) : IO A := fun w => (Ok a, w).
Definition throw {A} (message : jsstring) : IO A := fun w => (Throw message, w).
Definition bind {A B} (m : IO A) (k : A -> IO B) : IO B :=
  fun w => match m w with
           | (Ok a, w') => k a w'
           | (Throw e, w') => (Throw e, w')
           end.
Definition lift {A} (r : Result A) : IO A := fun w => (r, w).
(** [try { m } catch (e) { h e.message }] *)
Definition try_catch {A} (m : IO A) (h : jsstring -> IO A) : IO A :=
  fun w => match m w with
           | (Ok a, w') => (Ok a, w')
           | (Throw e, w') => h e w'
           end.

(** [await fetch(url, { headers, cache: "no-store" })] *)
Definition fetch (r : Request) : IO (HttpResponse Json) :=
  fun w => let (res, n) := fetch_step r (net w) in
           (res, {| net := n; trace := trace w ++ [EvFetch r] |}).

(** [await ai.models.generateContent({ model, contents: prompt, config })],
    then [response.text]; model name and schema are constants. *)
Definition generateContent (prompt : jsstring) : IO (option jsstring) :=
  fun w => let (res, n) := generate_step prompt (net w) in
           (res, {| net := n; trace := trace w ++ [EvGenerate prompt] |}).

(** [await res.text().catch(() => "")] *)
Definition text_or_empty (res : HttpResponse Json) : jsstring :=
  match res_text res with Ok t => t | Throw _ => [] end.

(** The request headers both routes build. *)
Definition gh_headers : list (jsstring * jsstring) :=
  let headers := [(JS.js "Accept", JS.js "application/vnd.github+json")] in
  match GITHUB_TOKEN with
  | Some token =>
      if JS.truthy token
      then headers ++ [(JS.js "Authorization", JS.js "Bearer " ++ token)]
      else headers
  | None => headers
  end.
End IO.

Notation "'let!' x ':=' m 'in' k" := (bind m (fun x => k))
  (at level 10, x name, m at level 100, k at level 200).
Notation "'let!' ' p ':=' m 'in' k" := (bind m (fun x => match x with p => k end))
  (at level 10, p pattern, m at level 100, k at level 200).

(** [Response.json(body, { status })] *)
Record Response (B : Type) := { status : Z; body : B }.
Arguments status {B} _.
Arguments body {B} _.

Definition GH_API : jsstring := JS.js "https://api.github.com".

(* ===================================================================== *)
(** * [src/app/api/analyze/route.ts] *)
(* ===================================================================== *)

Module Analyze.

(** The members of [AnalyzeBody.files] as they arrive: the request body
    is unchecked JSON, and the route guards against a missing [path]
    ([f.path || "snippet.ts"]) and a missing [content]
    ([f.content ?? ""]). *)
Record SnippetFile := {
  snippet_path : option jsstring;
  snippet_content : option jsstring
}.

(** [AnalyzeBody]; [files] and [paths] may be missing ([body.files || []]),
    and [OtherMode] is any body whose [mode] is neither literal. *)
Inductive AnalyzeBody :=
| Snippet (files : option (list SnippetFile))
| Github (owner repo ref : jsstring) (paths : option (list jsstring))
| OtherMode.

(** [{ path: string; content: string }] *)
Record File := { path : jsstring; content : jsstring }.

(** [AnalyzeResponse] *)
Inductive AnalyzeResponse :=
| Review (text : option jsstring) (truncated : bool) (totalBytes : Z) (fileCount : Z)
| Failure (error : jsstring).

Definition MAX_TOTAL_BYTES : Z := 200000.
Definition MAX_FILE_BYTES : Z := 40000.
Definition MAX_FILES : Z := 50.

Definition bytes (str : jsstring) : Z := JS.utf8_length str.

(** The result of [maybeTruncateContent]. *)
Record Truncation := { text : jsstring; truncated : bool }.

Definition marker : jsstring :=
  JS.LF :: JS.js "/* ... truncated middle due to size limits ... */" ++ [JS.LF].

(** [maybeTruncateContent(content, limit)] for an integral [limit];
    [Math.floor(limit / 2)] is [limit / 2] of [Z]. *)
Definition maybeTruncateContent (content : jsstring) (limit : Z) : Truncation :=
  if bytes content <=? limit then {| text := content; truncated := false |}
  else
    let half := Z.max 0 (limit / 2) in
    let head := JS.slice content 0 (Some half) in
    let tail := JS.slice content (- half) None in
    let combined := head ++ marker ++ tail in
    {| text := combined; truncated := true |}.

(** The global size cap, lines 106-118: the [for ... of] loop over
    [files] with its [break], on the loop variables [total], [bounded]
    and [truncatedAny]. *)
Fixpoint budget_loop (files : list File) (total : Z) (bounded : list File)
    (truncatedAny : bool) : Z * list File * bool :=
  match files with
  | [] => (total, bounded, truncatedAny)
  | f :: rest =>
      let sz := bytes (content f) in
      if total + sz >? MAX_TOTAL_BYTES then (total, bounded, true)
      else budget_loop rest (total + sz) (bounded ++ [f]) truncatedAny
  end.

(** The sum of the UTF-8 sizes of the contents of a list of files. *)
Definition sum_bytes (files : list File) : Z :=
  foldr (fun f acc => bytes (content f) + acc) 0 files.

Definition header : jsstring := JS.js
"You are a senior code reviewer. Analyze the following files and provide a structured review in JSON format with the following categories(only give categories that are relevant, skip others):
1. Code Quality & Readability
2. Correctness / Logic
3. Security & Vulnerability
4. Performance & Optimization
5. Maintainability & Scalability
6. Documentation & Comments
7. Testing & Coverage
8. Standards & Conventions
9. Dependency Management
10. Security Compliance
11. Code Structure & Architecture
12. Reusability & Modularity

For each category, provide findings, severity (HIGH, MEDIUM, LOW), and specific suggestions with code examples where applicable.
".

(** [bounded.map(f => `===== FILE: ${f.path} =====\n${f.content}\n`).join("\n")] *)
Definition render_file (f : File) : jsstring :=
  JS.js "===== FILE: " ++ path f ++ JS.js " =====" ++ [JS.LF] ++ content f ++ [JS.LF].
Definition render_bundle (bounded : list File) : jsstring :=
  JS.join [JS.LF] (List.map render_file bounded).

(** The two addresses of [ghGetContent]:
    [`${GH_API}/repos/${owner}/${repo}/contents/${encodeURIComponent(path)}?ref=${encodeURIComponent(ref)}`]
    with the two components already encoded, and
    [`https://raw.githubusercontent.com/${owner}/${repo}/${ref}/${path}`]. *)
Definition contents_url (owner repo epath eref : jsstring) : jsstring :=
  GH_API ++ JS.js "/repos/" ++ owner ++ JS.js "/" ++ repo ++ JS.js "/contents/"
    ++ epath ++ JS.js "?ref=" ++ eref.
Definition raw_url (owner repo ref path : jsstring) : jsstring :=
  JS.js "https://raw.githubusercontent.com/" ++ owner ++ JS.js "/" ++ repo
    ++ JS.js "/" ++ ref ++ JS.js "/" ++ path.

(** [json?.content && json?.encoding === "base64"] *)
Definition is_base64_content (json : ContentJson) : bool :=
  match json_content json, json_encoding json with
  | Some c, Some e => JS.truthy c && JS.string_eqb e (JS.js "base64")
  | _, _ => false
  end.

(** The body of the [.map] callback of snippet mode, line 89-93: the
    file it returns and whether it raised [truncatedAny]. *)
Definition snippet_file (f : SnippetFile) : File * bool :=
  let t := maybeTruncateContent (default [] (snippet_content f)) MAX_FILE_BYTES in
  ({| path := JS.or_else (snippet_path f) (JS.js "snippet.ts"); content := text t |},
   truncated t).

Section Route.
Context `{Platform}.

(** [ghGetContent(owner, repo, path, ref)], lines 51-79; [fallback]
    is the raw-endpoint attempt of lines 72-78. *)
Definition ghGetContent (owner repo path ref : jsstring) : IO jsstring :=
  let headers := gh_headers in
  let fallback : IO jsstring :=
    let! rawRes := fetch {| req_url := raw_url owner repo ref path;
                            req_headers := headers |} in
    if negb (res_ok rawRes)
    then throw (JS.js "Failed to fetch raw content for " ++ path)
    else lift (res_text rawRes) in
  let! epath := lift (encodeURIComponent path) in
  let! eref := lift (encodeURIComponent ref) in
  let! res := fetch {| req_url := contents_url owner repo epath eref;
                       req_headers := headers |} in
  if negb (res_ok res) then
    let msg := text_or_empty res in
    throw (JS.js "GitHub content error " ++ JS.number_to_string (res_status res)
             ++ JS.js ": " ++ msg)
  else
    let! json := lift (res_json res) in
    if is_base64_content (as_ContentJson json)
    then ret (base64_to_utf8 (default [] (json_content (as_ContentJson json))))
    else fallback.

(** The [for (const p of paths)] loop of github mode, lines 96-101, on
    the variables [files] and [truncatedAny]. *)
Fixpoint fetch_loop (owner repo ref : jsstring) (paths : list jsstring)
    (files : list File) (truncatedAny : bool) : IO (list File * bool) :=
  match paths with
  | [] => ret (files, truncatedAny)
  | p :: rest =>
      let! raw := ghGetContent owner repo p ref in
      let t := maybeTruncateContent raw MAX_FILE_BYTES in
      fetch_loop owner repo ref rest
        (files ++ [{| path := p; content := text t |}])
        (truncatedAny || truncated t)
  end.

(** Lines 106-188: the global size cap, the prompt, the model call and
    the success response. *)
Definition budget_and_review (files : list File) (truncatedAny : bool)
    : IO (Response AnalyzeResponse) :=
  let '(total, bounded, truncatedAny) := budget_loop files 0 [] truncatedAny in
  let bundle := render_bundle bounded in
  let prompt := header ++ [JS.LF] ++ bundle in
  let! text := generateContent prompt in
  ret {| status := 200;
         body := Review text truncatedAny total (Z.of_nat (length bounded)) |}.

(** The [try] block of [POST], lines 85-188. *)
Definition POST_try (body : AnalyzeBody) : IO (Response AnalyzeResponse) :=
  match body with
  | Snippet files =>
      let mapped := List.map snippet_file
                      (JS.slice (default [] files) 0 (Some MAX_FILES)) in
      budget_and_review (List.map fst mapped) (existsb snd mapped)
  | Github owner repo ref paths =>
      let paths := JS.slice (default [] paths) 0 (Some MAX_FILES) in
      let! '(files, truncatedAny) := fetch_loop owner repo ref paths [] false in
      budget_and_review files truncatedAny
  | OtherMode =>
      ret {| status := 400; body := Failure (JS.js "Unsupported mode") |}
  end.

(** [POST], with its [catch] clause of lines 189-191. *)
Definition POST (body : AnalyzeBody) : IO (Response AnalyzeResponse) :=
  try_catch (POST_try body)
    (fun message =>
       ret {| status := 400;
              body := Failure (message_or message (JS.js "Failed to analyze")) |}).
End Route.

End Analyze.

(** ** The truncator as the specification words it *)

Module TruncatorSpec.
Import Analyze.

(** The first [n] characters of [s], and the last [n]. *)
Definition first_chars (n : Z) (s : jsstring) : jsstring := take (Z.to_nat n) s.
Definition last_chars (n : Z) (s : jsstring) : jsstring :=
  drop (length s - Z.to_nat n) s.

(** Section 4.4 of the specification: unchanged when within the limit,
    otherwise the first [floor(limit/2)] characters, the marker, and the
    last [floor(limit/2)] characters. *)
Definition truncate_spec (content : jsstring) (limit : Z) : Truncation :=
  if bytes content <=? limit then {| text := content; truncated := false |}
  else {| text := first_chars (limit / 2) content ++ marker
                    ++ last_chars (limit / 2) content;
          truncated := true |}.

End TruncatorSpec.

(* ===================================================================== *)
(** * [src/app/api/github/list-files/route.ts] *)
(* ===================================================================== *)

Module ListFiles.

(** The return type of [parseGitHubUrl]:
    [{ owner: string; repo: string; ref?: string; path?: string }].
    A property that is missing and one that is [undefined] read alike. *)
Record RepoReference := {
  owner : jsstring;
  repo : jsstring;
  ref : option jsstring;
  path : option jsstring
}.

(** [ListFilesResponse]: the listing, or the error body. *)
Inductive ListFilesResponse :=
| Listing (owner repo ref : jsstring) (rootPath : option jsstring) (files : list jsstring)
| Failure (error : jsstring).

Definition SLASH : N := 47%N.

(** [u.pathname.split("/").filter(Boolean)] *)
Definition segments (pathname : jsstring) : list jsstring :=
  List.filter JS.truthy (JS.split SLASH pathname).

(** [parts[2] === "tree" || parts[2] === "blob"] *)
Definition is_tree_or_blob (part : option jsstring) : bool :=
  match part with
  | Some s => JS.string_eqb s (JS.js "tree") || JS.string_eqb s (JS.js "blob")
  | None => false
  end.

(** [skipExt], lines 72-91. *)
Definition skipExt : gset jsstring :=
  list_to_set (List.map JS.js
    [ ".png"; ".jpg"; ".jpeg"; ".gif"; ".webp"; ".svg"; ".ico"; ".pdf"; ".zip";
      ".gz"; ".mp4"; ".mp3"; ".mov"; ".ogg"; ".ogv"; ".webm"; ".glb"; ".gltf" ]%string).

(** [tree.tree.filter((t) => t.type === "blob").map((t) => t.path)], line 64. *)
Definition blob_paths (t : TreeResp) : list jsstring :=
  List.map entry_path
    (List.filter (fun e => JS.string_eqb (entry_type e) (JS.js "blob")) (tree t)).

(** The sub-path filter of lines 66-69. *)
Definition normalize_prefix (rootPath : jsstring) : jsstring :=
  if JS.endsWith rootPath (JS.js "/") then rootPath else rootPath ++ JS.js "/".

Definition subpath_filter (rootPath : option jsstring) (files : list jsstring)
    : list jsstring :=
  match rootPath with
  | Some rp =>
      if JS.truthy rp && negb (JS.len rp =? 0) then
        let prefix := normalize_prefix rp in
        List.map (fun p => p) (List.filter (fun p => JS.startsWith p prefix) files)
      else files
  | None => files
  end.

Section Route.
Context `{Platform}.

(** The body of the [try] of [parseGitHubUrl], lines 17-27.  The
    pattern on [parts] is the length check of line 20 together with
    the destructuring of line 21. *)
Definition parseGitHubUrl_try (url : jsstring) : Result RepoReference :=
  match URL_new url with
  | Throw message => Throw message
  | Ok u =>
      if negb (JS.string_eqb (hostname u) (JS.js "github.com"))
      then Throw (JS.js "Only github.com links are supported")
      else
        let parts := segments (pathname u) in
        match parts with
        | owner :: repo :: _ =>
            if is_tree_or_blob (parts !! 2%nat) then
              let ref := parts !! 3%nat in
              let path := JS.join (JS.js "/") (JS.slice parts 4 None) in
              Ok {| owner := owner; repo := repo; ref := ref; path := Some path |}
            else Ok {| owner := owner; repo := repo; ref := None; path := None |}
        | _ => Throw (JS.js "Invalid repository URL")
        end
  end.

(** [parseGitHubUrl(url)], with the [catch] of lines 28-30. *)
Definition parseGitHubUrl (url : jsstring) : Result RepoReference :=
  match parseGitHubUrl_try url with
  | Ok r => Ok r
  | Throw message => Throw (message_or message (JS.js "Invalid URL"))
  end.

(** [gh<T>(path)], lines 33-45; the cast to [T] is made by the caller. *)
Definition gh (path : jsstring) : IO Json :=
  let headers := gh_headers in
  let! res := fetch {| req_url := GH_API ++ path; req_headers := headers |} in
  if negb (res_ok res) then
    let msg := text_or_empty res in
    throw (JS.js "GitHub API error " ++ JS.number_to_string (res_status res)
             ++ JS.js ": " ++ msg)
  else lift (res_json res).

(** The callback of the extension filter, lines 92-97. *)
Definition keep_extension (p : jsstring) : bool :=
  let dot := JS.lastIndexOf p (JS.js ".") in
  if dot =? -1 then true
  else
    let ext := toLowerCase (JS.slice p dot None) in
    negb (bool_decide (ext ∈ skipExt)).

(** Lines 64-97: from the tree listing to the reported [files]. *)
Definition filter_files (rootPath : option jsstring) (t : TreeResp) : list jsstring :=
  let files := blob_paths t in
  let files := subpath_filter rootPath files in
  List.filter keep_extension files.

(** The [try] block of [POST], lines 54-99. *)
Definition POST_try (repoUrl : jsstring) : IO (Response ListFilesResponse) :=
  let! parsed := lift (parseGitHubUrl repoUrl) in
  let owner := owner parsed in
  let repo := repo parsed in
  let refMaybe := ref parsed in
  let rootPath := path parsed in
  let! repoInfo := gh (JS.js "/repos/" ++ owner ++ JS.js "/" ++ repo) in
  let ref := JS.or_else refMaybe (default_branch (as_RepoInfo repoInfo)) in
  let! eref := lift (encodeURIComponent ref) in
  let! tree := gh (JS.js "/repos/" ++ owner ++ JS.js "/" ++ repo ++ JS.js "/git/trees/"
                     ++ eref ++ JS.js "?recursive=1") in
  let files := filter_files rootPath (as_TreeResp tree) in
  ret {| status := 200; body := Listing owner repo ref rootPath files |}.

(** [POST]; [repoUrl] is [None] when the request body has none. *)
Definition POST (repoUrl : option jsstring) : IO (Response ListFilesResponse) :=
  match repoUrl with
  | Some url =>
      if negb (JS.truthy url)
      then ret {| status := 400; body := Failure (JS.js "repoUrl is required") |}
      else
        try_catch (POST_try url)
          (fun message =>
             ret {| status := 400;
                    body := Failure (message_or message (JS.js "Failed to list files")) |})
  | None => ret {| status := 400; body := Failure (JS.js "repoUrl is required") |}
  end.
End Route.

End ListFiles.

(* ===================================================================== *)
(** * Vocabulary of the statements *)
(* ===================================================================== *)

Module AnalyzeSpec.
Import Analyze.

Section Vocabulary.
Context `{Platform}.

(** The raw contents of [paths], fetched one after the other. *)
Fixpoint fetch_all (owner repo ref : jsstring) (paths : list jsstring)
    : IO (list jsstring) :=
  match paths with
  | [] => ret []
  | p :: rest =>
      let! raw := ghGetContent owner repo p ref in
      let! raws := fetch_all owner repo ref rest in
      ret (raw :: raws)
  end.

(** The file that a path and its raw content become once the content
    has gone through the per-file limit. *)
Definition per_file (pc : jsstring * jsstring) : File :=
  {| path := pc.1; content := text (maybeTruncateContent pc.2 MAX_FILE_BYTES) |}.

(** Whether the per-file limit truncated a raw content. *)
Definition per_file_truncated (pc : jsstring * jsstring) : Prop :=
  truncated (maybeTruncateContent pc.2 MAX_FILE_BYTES) = true.

(** The files a request considers, as (path, raw content): the first
    50 of a snippet request, with the defaults of the route for a
    missing path or content; the first 50 paths of a github request
    with what fetching them, in order, from world [w] returned. *)
Definition considered (body : AnalyzeBody) (w : World)
    (raws : list (jsstring * jsstring)) : Prop :=
  match body with
  | Snippet files =>
      raws = List.map (fun f => (JS.or_else (snippet_path f) (JS.js "snippet.ts"),
                                 default [] (snippet_content f)))
               (take 50 (default [] files))
  | Github owner repo ref paths =>
      exists contents w1,
        fetch_all owner repo ref (take 50 (default [] paths)) w = (Ok contents, w1) /\
        length contents = length (take 50 (default [] paths)) /\
        raws = zip (take 50 (default [] paths)) contents
  | OtherMode => False
  end.

(** The request with everything after the 50th file or path cut off. *)
Definition first_fifty (body : AnalyzeBody) : AnalyzeBody :=
  match body with
  | Snippet files => Snippet (Some (take 50 (default [] files)))
  | Github owner repo ref paths =>
      Github owner repo ref (Some (take 50 (default [] paths)))
  | OtherMode => OtherMode
  end.

(** A request of [ghGetContent] for the path [p]: to the contents
    endpoint or to the raw endpoint. *)
Definition request_for (owner repo ref p : jsstring) (ev : Event) : Prop :=
  match ev with
  | EvFetch rq =>
      req_url rq = raw_url owner repo ref p \/
      exists epath eref,
        encodeURIComponent p = Ok epath /\ encodeURIComponent ref = Ok eref /\
        req_url rq = contents_url owner repo epath eref
  | EvGenerate _ => False
  end.

(** The events of one call of [ghGetContent] for the path [p]: at most
    two requests, each for [p]. *)
Definition requests_for (owner repo ref p : jsstring) (evs : list Event) : Prop :=
  (length evs <= 2)%nat /\ Forall (request_for owner repo ref p) evs.

Definition is_generate (ev : Event) : Prop :=
  match ev with EvGenerate _ => True | EvFetch _ => False end.

(** [ghGetContent] run in a world, step by step. *)
Definition ghGetContent_run (owner repo p ref : jsstring) (w : World)
    : Result jsstring * World :=
  match encodeURIComponent p, encodeURIComponent ref with
  | Throw e, _ => (Throw e, w)
  | Ok _, Throw e => (Throw e, w)
  | Ok epath, Ok eref =>
      let rq1 := {| req_url := contents_url owner repo epath eref;
                    req_headers := gh_headers |} in
      let rq2 := {| req_url := raw_url owner repo ref p;
                    req_headers := gh_headers |} in
      let '(res1, n1) := fetch_step rq1 (net w) in
      let w1 := {| net := n1; trace := trace w ++ [EvFetch rq1] |} in
      match res1 with
      | Throw e => (Throw e, w1)
      | Ok res1 =>
          if res_ok res1 then
            match res_json res1 with
            | Throw e => (Throw e, w1)
            | Ok json =>
                if is_base64_content (as_ContentJson json)
                then (Ok (base64_to_utf8 (default [] (json_content (as_ContentJson json)))), w1)
                else
                  let '(res2, n2) := fetch_step rq2 n1 in
                  let w2 := {| net := n2; trace := trace w1 ++ [EvFetch rq2] |} in
                  match res2 with
                  | Throw e => (Throw e, w2)
                  | Ok res2 =>
                      if res_ok res2 then (res_text res2, w2)
                      else (Throw (JS.js "Failed to fetch raw content for " ++ p), w2)
                  end
            end
          else (Throw (JS.js "GitHub content error " ++ JS.number_to_string (res_status res1)
                         ++ JS.js ": " ++ text_or_empty res1), w1)
      end
  end.

(** The two ways in which fetching [path] fails, in world [w]: the
    contents endpoint answers with a non-success response; or it
    answers with something that is not base64 content, and the raw
    endpoint answers with a non-success response. *)
Inductive fetch_failure (owner repo path ref : jsstring) (w : World) : Prop :=
| metadata_not_ok epath eref res n :
    encodeURIComponent path = Ok epath ->
    encodeURIComponent ref = Ok eref ->
    fetch_step {| req_url := contents_url owner repo epath eref;
                  req_headers := gh_headers |} (net w) = (Ok res, n) ->
    res_ok res = false ->
    fetch_failure owner repo path ref w
| fallback_not_ok epath eref res n json rawRes n' :
    encodeURIComponent path = Ok epath ->
    encodeURIComponent ref = Ok eref ->
    fetch_step {| req_url := contents_url owner repo epath eref;
                  req_headers := gh_headers |} (net w) = (Ok res, n) ->
    res_ok res = true ->
    res_json res = Ok json ->
    is_base64_content (as_ContentJson json) = false ->
    fetch_step {| req_url := raw_url owner repo ref path;
                  req_headers := gh_headers |} n = (Ok rawRes, n') ->
    res_ok rawRes = false ->
    fetch_failure owner repo path ref w.
End Vocabulary.

End AnalyzeSpec.

Module ListFilesSpec.
Import ListFiles.

Definition DOT : N := 46%N.

(** Two strings that differ at most in the case of ASCII letters. *)
Definition same_ignoring_case (a b : jsstring) : Prop :=
  JS.ascii_lower a = JS.ascii_lower b.

(** A path whose extension is on the denylist: the path is [pre ++ ext]
    where [ext] starts at the last ["."] of the path, and [ext] is a
    member of [skipExt] up to the case of its letters. *)
Definition denylisted (p : jsstring) : Prop :=
  exists pre suf e,
    p = pre ++ DOT :: suf /\ (DOT ∉ suf) /\
    (e ∈ skipExt) /\ same_ignoring_case (DOT :: suf) e.

(** A sub-path made to end with ["/"]. *)
Definition with_trailing_slash (rootPath : jsstring) : jsstring :=
  if decide (last rootPath = Some SLASH) then rootPath else rootPath ++ [SLASH].

Section Vocabulary.
Context `{Platform}.

(** A reference that the parser has to refuse: not a URL, a host other
    than [github.com], or fewer than two non-empty path segments. *)
Definition invalid_reference (url : jsstring) : Prop :=
  match URL_new url with
  | Throw _ => True
  | Ok u =>
      hostname u <> JS.js "github.com" \/
      (length (segments (pathname u)) < 2)%nat
  end.

(** The service answers the request for [path], made in state [n],
    with success and the JSON body [j], and is left in state [n']. *)
Definition gh_returns (path : jsstring) (n : NetState) (j : Json) (n' : NetState)
    : Prop :=
  exists res,
    fetch_step {| req_url := GH_API ++ path; req_headers := gh_headers |} n
      = (Ok res, n') /\
    res_ok res = true /\ res_json res = Ok j.

(** The two addresses the lister asks for. *)
Definition repo_path (owner repo : jsstring) : jsstring :=
  JS.js "/repos/" ++ owner ++ JS.js "/" ++ repo.
Definition tree_path (owner repo eref : jsstring) : jsstring :=
  JS.js "/repos/" ++ owner ++ JS.js "/" ++ repo ++ JS.js "/git/trees/"
    ++ eref ++ JS.js "?recursive=1".
End Vocabulary.

End ListFilesSpec.

(* ===================================================================== *)
(** * A small platform to run the routes on *)
(* ===================================================================== *)

(** One concrete [Platform], for evaluating the routes: a URL parser for
    addresses of the plain form [https://host/path], a network of one
    repository [o/r] with five tree entries and one fetchable file, and
    a model service that always answers.  The theorems below hold for
    every platform; this one shows their hypotheses can be met. *)
Module Toy.
Import JS.

Inductive ToyJson :=
| JContent (c : ContentJson)
| JRepo (r : RepoInfo)
| JTree (t : TreeResp)
| JNull.

(** [new URL(s)] on [https://host/path] without port, query or fragment. *)
Definition url_new (s : jsstring) : Result URL :=
  let scheme := js "https://" in
  if startsWith s scheme then
    let rest := drop (length scheme) s in
    match split 47%N rest with
    | host :: _ =>
        if truthy host then
          let p := drop (length host) rest in
          Ok {| hostname := ascii_lower host;
                pathname := if truthy p then p else js "/" |}
        else Throw (js "Invalid URL")
    | [] => Throw (js "Invalid URL")
    end
  else Throw (js "Invalid URL").

Definition toy_tree : TreeResp :=
  {| tree_truncated := false;
     tree := [ {| entry_path := js "README"; entry_type := js "blob" |};
               {| entry_path := js "src"; entry_type := js "tree" |};
               {| entry_path := js "src/a.ts"; entry_type := js "blob" |};
               {| entry_path := js "src/logo.PNG"; entry_type := js "blob" |};
               {| entry_path := js "docs/x.md"; entry_type := js "blob" |} ] |}.

Definition ok_json (j : ToyJson) : HttpResponse ToyJson :=
  {| res_ok := true; res_status := 200; res_text := Ok []; res_json := Ok j |}.
Definition not_found : HttpResponse ToyJson :=
  {| res_ok := false; res_status := 404;
     res_text := Ok (js "Not Found"); res_json := Ok JNull |}.

(** The network counts the calls made to it. *)
Definition toy_fetch (r : Request) (n : nat)
    : Result (HttpResponse ToyJson) * nat :=
  let url := req_url r in
  let res :=
    if string_eqb url (GH_API ++ js "/repos/o/r")
    then ok_json (JRepo {| default_branch := js "main" |})
    else if string_eqb url (GH_API ++ js "/repos/o/r/git/trees/main?recursive=1")
    then ok_json (JTree toy_tree)
    else if string_eqb url (Analyze.contents_url (js "o") (js "r") (js "a.ts") (js "main"))
    then ok_json (JContent {| json_content := Some (js "eA==");
                              json_encoding := Some (js "base64") |})
    else not_found in
  (Ok res, S n).

Definition toy : Platform :=
  {| NetState := nat;
     Json := ToyJson;
     URL_new := url_new;
     toLowerCase := ascii_lower;
     toLowerCase_ascii := fun s _ => eq_refl;
     encodeURIComponent := fun s => Ok s;
     base64_to_utf8 := fun s => s;
     GITHUB_TOKEN := None;
     fetch_step := toy_fetch;
     generate_step := fun prompt n => (Ok (Some (js "{}")), S n);
     as_ContentJson := fun j => match j with
                                | JContent c => c
                                | _ => {| json_content := None; json_encoding := None |}
                                end;
     as_RepoInfo := fun j => match j with
                             | JRepo r => r
                             | _ => {| default_branch := [] |}
                             end;
     as_TreeResp := fun j => match j with
                             | JTree t => t
                             | _ => {| tree_truncated := false; tree := [] |}
                             end |}.

Definition world0 : @World toy := @Build_World toy 0%nat [].

End Toy.

(* ===================================================================== *)
(** * Further vocabulary and platforms *)
(* ===================================================================== *)

Module AnalyzeMoreSpec.
Import Analyze.

(** The number of files or paths a request carries. *)
Definition request_size (req : AnalyzeBody) : nat :=
  match req with
  | Snippet files => length (default [] files)
  | Github _ _ _ paths => length (default [] paths)
  | OtherMode => 0
  end.

(** What [await req.json()] resolves to: [null], or a value that the
    route reads at its type [AnalyzeBody]. *)
Inductive ReadBody :=
| NullBody
| TypedBody (body : AnalyzeBody).

(** The prompt of lines 120-138 for a bundle. *)
Definition prompt_of (bounded : list File) : jsstring :=
  header ++ [JS.LF] ++ render_bundle bounded.

(** The bundle the budgeter makes of [files]. *)
Definition bundle_of (files : list File) : list File :=
  (budget_loop files 0 [] false).1.2.

Section Vocabulary.
Context `{Platform}.

(** The [catch] clause of [POST], lines 189-191. *)
Definition on_error (message : jsstring) : IO (Response AnalyzeResponse) :=
  ret {| status := 400;
         body := Failure (message_or message (JS.js "Failed to analyze")) |}.

(** [POST(req)] from its first line: [await req.json()] of line 82
    stands before the [try], so when it rejects (the body is not JSON)
    the route throws.  A body that was read is the JSON value [null],
    on which reading [body.mode] at line 88, inside the [try], throws a
    [TypeError] whose message [null_message] the engine words; or it
    is a value read at the type [AnalyzeBody]. *)
Definition POST_of_request (null_message : jsstring) (json : Result ReadBody)
    : IO (Response AnalyzeResponse) :=
  let! read := lift json in
  match read with
  | NullBody => try_catch (throw null_message) on_error
  | TypedBody body => POST body
  end.

(** An event that is a request carrying the headers of [gh_headers],
    or is no request. *)
Definition carries_headers (ev : Event) : Prop :=
  match ev with
  | EvFetch rq => req_headers rq = gh_headers
  | EvGenerate _ => True
  end.
End Vocabulary.

End AnalyzeMoreSpec.

(** A family of platforms for evaluating the routes: the network is a
    table from addresses to responses (any other address is answered
    with 404), the model service gives one fixed outcome, and the token
    is as given.  The rest is as in [Toy]. *)
Module Lab.
Import JS.

Definition lookup_url (table : list (jsstring * HttpResponse Toy.ToyJson))
    (url : jsstring) : HttpResponse Toy.ToyJson :=
  match List.find (fun kv => string_eqb kv.1 url) table with
  | Some kv => kv.2
  | None => Toy.not_found
  end.

Definition platform (table : list (jsstring * HttpResponse Toy.ToyJson))
    (model : Result (option jsstring)) (token : option jsstring) : Platform :=
  {| NetState := nat;
     Json := Toy.ToyJson;
     URL_new := Toy.url_new;
     toLowerCase := ascii_lower;
     toLowerCase_ascii := fun s _ => eq_refl;
     encodeURIComponent := fun s => Ok s;
     base64_to_utf8 := fun s => s;
     GITHUB_TOKEN := token;
     fetch_step := fun r n => (Ok (lookup_url table (req_url r)), S n);
     generate_step := fun prompt n => (model, S n);
     as_ContentJson := @as_ContentJson Toy.toy;
     as_RepoInfo := @as_RepoInfo Toy.toy;
     as_TreeResp := @as_TreeResp Toy.toy |}.

Definition world_at (P : Platform) (n : @NetState P) : @World P := @Build_World P n [].

(** A plain-text answer of the raw endpoint. *)
Definition ok_text (t : jsstring) : HttpResponse Toy.ToyJson :=
  {| res_ok := true; res_status := 200; res_text := Ok t; res_json := Throw (js "Unexpected token") |}.

(** A service error. *)
Definition server_error : HttpResponse Toy.ToyJson :=
  {| res_ok := false; res_status := 500;
     res_text := Ok (js "boom"); res_json := Ok Toy.JNull |}.

(** The contents endpoint answers for the empty file [empty.txt] with
    an empty [content]; the raw endpoint has the file. *)
Definition empty_file_net : list (jsstring * HttpResponse Toy.ToyJson) :=
  [ (Analyze.contents_url (js "o") (js "r") (js "empty.txt") (js "main"),
     Toy.ok_json (Toy.JContent {| json_content := Some [];
                                  json_encoding := Some (js "base64") |}));
    (Analyze.raw_url (js "o") (js "r") (js "main") (js "empty.txt"), ok_text []) ].

(** No model service: every call throws. *)
Definition model_down : Platform :=
  platform [] (Throw (js "API key not valid")) None.

(** The repository endpoint fails. *)
Definition repo_down : Platform :=
  platform [ (GH_API ++ js "/repos/o/r", server_error) ] (Ok None) None.

End Lab.

Module ListFilesMoreSpec.
Import ListFiles ListFilesSpec.

Section Vocabulary.
Context `{Platform}.

(** The two requests of the lister for a reference. *)
Definition repo_request (r : RepoReference) : Event :=
  EvFetch {| req_url := GH_API ++ repo_path (owner r) (repo r);
             req_headers := gh_headers |}.
Definition tree_request (r : RepoReference) (eref : jsstring) : Event :=
  EvFetch {| req_url := GH_API ++ tree_path (owner r) (repo r) eref;
             req_headers := gh_headers |}.

Definition failure (message : jsstring) : Response ListFilesResponse :=
  {| status := 400; body := Failure message |}.

(** What [await req.json()] of line 48 resolves to: [null], or a
    value of which [repoUrl] is read, present or not. *)
Inductive ReadListBody :=
| NullListBody
| ListBody (repoUrl : option jsstring).

(** [POST(req)] from its first line: [await req.json()] and the
    destructuring of [repoUrl], line 48, stand before the [try].  When
    the first rejects (the body is not JSON) the route throws; so it
    does when the body is [null], which cannot be destructured, with a
    [TypeError] whose message [null_message] the engine words. *)
Definition POST_of_request (null_message : jsstring) (json : Result ReadListBody)
    : IO (Response ListFilesResponse) :=
  let! read := lift json in
  match read with
  | NullListBody => throw null_message
  | ListBody repoUrl => POST repoUrl
  end.

(** The four ways a list-files request ends, with the answer and the
    requests made: refused before any request; stopped after the
    request for the repository; stopped after the request for the
    tree; or answered with the listing. *)
Inductive outcome (repoUrl : option jsstring)
    : Response ListFilesResponse -> list Event -> Prop :=
| refused message :
    (forall url, repoUrl = Some url -> url <> [] ->
       parseGitHubUrl url = Throw message) ->
    message <> [] ->
    outcome repoUrl (failure message) []
| stopped_after_repo url r message :
    repoUrl = Some url -> parseGitHubUrl url = Ok r ->
    message <> [] ->
    outcome repoUrl (failure message) [repo_request r]
| stopped_after_tree url r eref message :
    repoUrl = Some url -> parseGitHubUrl url = Ok r ->
    message <> [] ->
    outcome repoUrl (failure message) [repo_request r; tree_request r eref]
| listed url r rf eref files :
    repoUrl = Some url -> parseGitHubUrl url = Ok r ->
    encodeURIComponent rf = Ok eref ->
    outcome repoUrl
      {| status := 200; body := Listing (owner r) (repo r) rf (path r) files |}
      [repo_request r; tree_request r eref].
End Vocabulary.

End ListFilesMoreSpec.

(* ===================================================================== *)
(** * [src/components/reviewer/code-reviewer.tsx] *)
(* ===================================================================== *)

Module Reviewer.

(** The code units that [String.prototype.trim] removes: WhiteSpace and
    LineTerminator of ECMAScript. *)
Definition is_trimmed_unit (c : N) : bool :=
  existsb (N.eqb c)
    [ 0x9; 0xA; 0xB; 0xC; 0xD; 0x20; 0xA0; 0x1680; 0x2028; 0x2029; 0x202F;
      0x205F; 0x3000; 0xFEFF ]%N
  || ((0x2000 <=? c) && (c <=? 0x200A))%N.

Fixpoint trimStart (s : jsstring) : jsstring :=
  match s with
  | [] => []
  | c :: s' => if is_trimmed_unit c then trimStart s' else s
  end.

(** [s.trim()] *)
Definition trim (s : jsstring) : jsstring :=
  rev (trimStart (rev (trimStart s))).

Section Component.
Context `{Platform}.

(** The memo [files], lines 96-102: the listed files that the filter
    box lets through.  [listData] is the answer of the list-files
    route once it has arrived; an answer without [files] shows
    nothing. *)
Definition files (listData : option ListFiles.ListFilesResponse) (filter : jsstring)
    : list jsstring :=
  match listData with
  | Some (ListFiles.Listing _ _ _ _ f) =>
      if negb (JS.truthy (trim filter)) then f
      else
        let q := toLowerCase (trim filter) in
        List.filter (fun p => JS.includes (toLowerCase p) q) f
  | _ => []
  end.
End Component.

End Reviewer.

(* ===================================================================== *)
(** * Facts about JavaScript strings *)
(* ===================================================================== *)

Module JSFacts.
Import JS.

Lemma startsWith_prefix (s p : jsstring) :
  startsWith s p = true <-> p `prefix_of` s.
Proof.
  revert s; induction p as [|a p IH]; intros s.
  - split; [intros _; apply prefix_nil | intros _; by destruct s].
  - destruct s as [|b s]; simpl.
    + split; [discriminate | intros Hp; apply prefix_nil_inv in Hp; discriminate].
    + rewrite andb_true_iff, N.eqb_eq, IH. split.
      * intros [-> Hp]. by apply prefix_cons.
      * intros Hp. split.
        -- by apply prefix_cons_inv_1 in Hp.
        -- by apply prefix_cons_inv_2 in Hp.
Qed.

Lemma string_eqb_eq (s t : jsstring) : string_eqb s t = true <-> s = t.
Proof.
  unfold string_eqb. rewrite andb_true_iff, Nat.eqb_eq, startsWith_prefix. split.
  - intros [Hlen [k ->]]. rewrite length_app in Hlen.
    destruct k; [by rewrite app_nil_r | simpl in Hlen; lia].
  - intros ->. split; [reflexivity | by exists []; rewrite app_nil_r].
Qed.

Lemma string_eqb_refl (s : jsstring) : string_eqb s s = true.
Proof. by apply string_eqb_eq. Qed.

Lemma string_eqb_neq (s t : jsstring) : string_eqb s t = false <-> s <> t.
Proof.
  rewrite <- string_eqb_eq. destruct (string_eqb s t); split; congruence.
Qed.

Lemma includes_app (a m b : jsstring) : includes (a ++ m ++ b) m = true.
Proof.
  induction a as [|c a IH]; simpl.
  - assert (Hp : startsWith (m ++ b) m = true)
      by (apply startsWith_prefix; by exists b).
    revert Hp. destruct (m ++ b); simpl; intros ->; reflexivity.
  - rewrite IH. apply orb_true_r.
Qed.

Section Slice.
Context {A : Type}.
Implicit Types xs : list A.

Lemma clamp_index_nonneg (n k : Z) :
  0 <= k -> clamp_index n k = Z.min k n.
Proof.
  intros Hk. unfold clamp_index.
  destruct (Z.ltb_spec k 0); [lia | reflexivity].
Qed.

Lemma clamp_index_neg (n k : Z) :
  k < 0 -> clamp_index n k = Z.max (n + k) 0.
Proof.
  intros Hk. unfold clamp_index.
  destruct (Z.ltb_spec k 0); [reflexivity | lia].
Qed.

Lemma slice_head xs (n : Z) :
  0 <= n -> slice xs 0 (Some n) = take (Z.to_nat n) xs.
Proof.
  intros Hn. unfold slice.
  rewrite !clamp_index_nonneg by lia.
  rewrite (Z.min_l 0) by lia. rewrite drop_0, Z.sub_0_r.
  destruct (Z.min_spec n (Z.of_nat (length xs))) as [[? ->]|[? ->]].
  - reflexivity.
  - rewrite Nat2Z.id. rewrite !take_ge by lia. reflexivity.
Qed.

Lemma slice_from xs (k : Z) :
  0 <= k -> slice xs k None = drop (Z.to_nat k) xs.
Proof.
  intros Hk. unfold slice.
  rewrite clamp_index_nonneg by lia.
  destruct (Z.min_spec k (Z.of_nat (length xs))) as [[? ->]|[? ->]].
  - apply take_ge. rewrite length_drop. lia.
  - rewrite Nat2Z.id, Z.sub_diag. simpl.
    rewrite take_0. symmetry. apply drop_ge. lia.
Qed.

Lemma slice_whole xs : slice xs 0 None = xs.
Proof. rewrite slice_from by lia. apply drop_0. Qed.

Lemma slice_tail xs (n : Z) :
  0 < n -> slice xs (- n) None = drop (length xs - Z.to_nat n) xs.
Proof.
  intros Hn. unfold slice.
  rewrite clamp_index_neg by lia.
  destruct (Z.max_spec (Z.of_nat (length xs) + - n) 0) as [[? ->]|[? ->]].
  - simpl. rewrite drop_0, Z.sub_0_r, Nat2Z.id.
    replace (length xs - Z.to_nat n)%nat with 0%nat by lia.
    rewrite drop_0. apply take_ge. lia.
  - replace (Z.to_nat (Z.of_nat (length xs) + - n)) with (length xs - Z.to_nat n)%nat by lia.
    apply take_ge. rewrite length_drop. lia.
Qed.
End Slice.

End JSFacts.

(* ===================================================================== *)
(** * The content truncator and the bundle budgeter *)
(* ===================================================================== *)

Module AnalyzeFacts.
Import JS JSFacts Analyze.

(** The loop invariant of the budgeter: from any loop state, the loop
    appends a prefix [take n files] of what is left, adds its size to
    [total], and stops early exactly when the next file would pass the
    cap, raising the flag. *)
Lemma budget_loop_spec (files : list File) :
  forall (total : Z) (bounded : list File) (flag : bool),
  exists n : nat,
    (n <= length files)%nat /\
    budget_loop files total bounded flag =
      (total + sum_bytes (take n files),
       bounded ++ take n files,
       flag || (n <? length files)%nat) /\
    (total <= MAX_TOTAL_BYTES -> total + sum_bytes (take n files) <= MAX_TOTAL_BYTES) /\
    (forall f, files !! n = Some f ->
       total + sum_bytes (take n files) + bytes (content f) > MAX_TOTAL_BYTES).
Proof.
  induction files as [|f rest IH]; intros total bounded flag.
  - exists 0%nat. simpl. rewrite app_nil_r, orb_false_r, Z.add_0_r.
    repeat split; try lia. intros f Hf. discriminate.
  - simpl. destruct (Z.gtb_spec (total + bytes (content f)) MAX_TOTAL_BYTES) as [Hgt|Hle].
    + exists 0%nat. simpl. rewrite app_nil_r, orb_true_r, Z.add_0_r.
      repeat split; try lia. intros f' [= <-]. lia.
    + destruct (IH (total + bytes (content f)) (bounded ++ [f]) flag)
        as (n & Hn & Heq & Hcap & Hnext).
      exists (S n). simpl. rewrite Heq, <- app_assoc. simpl.
      replace (total + (bytes (content f) + sum_bytes (take n rest)))
        with (total + bytes (content f) + sum_bytes (take n rest)) by lia.
      repeat split; try lia. intros f' Hf'. apply Hnext in Hf'. lia.
Qed.

(** ** C1 *)

(** C1.  For every ordered sequence of files handed to the budgeter (the
    loop started with [total = 0], an empty [bounded], and whatever flag
    was raised before), the bundle is a prefix of the input in input
    order; the UTF-8 sizes of the included contents sum to the reported
    total, which never exceeds [MAX_TOTAL_BYTES] = 200,000; and inclusion
    is downward closed: a position excluded from the bundle excludes all
    later positions, and every included position holds the very file the
    input has there. *)
Theorem budget_is_bounded_prefix (files : list File) (flag : bool) :
  MAX_TOTAL_BYTES = 200000 /\
  let '(total, bounded, _) := budget_loop files 0 [] flag in
  bounded `prefix_of` files /\
  total = sum_bytes bounded /\
  sum_bytes bounded <= MAX_TOTAL_BYTES /\
  (forall i f, bounded !! i = Some f -> files !! i = Some f) /\
  (forall i j, (i <= j)%nat -> bounded !! i = None -> bounded !! j = None) /\
  (forall j, is_Some (bounded !! j) ->
     forall i, (i <= j)%nat -> is_Some (bounded !! i) /\ bounded !! i = files !! i).
Proof.
  split; [reflexivity|].
  destruct (budget_loop_spec files 0 [] flag) as (n & Hn & Heq & Hcap & _).
  rewrite Heq. simpl.
  assert (Hpre : take n files `prefix_of` files) by apply prefix_take.
  assert (Hlk : forall i f, take n files !! i = Some f -> files !! i = Some f).
  { intros i f Hi. eapply prefix_lookup_Some; eauto. }
  split; [exact Hpre|]. split; [reflexivity|].
  split; [apply Hcap; unfold MAX_TOTAL_BYTES; lia|].
  split; [exact Hlk|]. split.
  - intros i j Hij Hi. apply lookup_ge_None. apply lookup_ge_None in Hi. lia.
  - intros j [f Hf] i Hij. apply lookup_lt_Some in Hf.
    destruct (lookup_lt_is_Some_2 (take n files) i) as [g Hg]; [lia|].
    split; [by exists g|]. rewrite Hg. symmetry. by apply Hlk.
Qed.

(** ** C2 *)

Lemma maybeTruncateContent_within (content : jsstring) (limit : Z) :
  bytes content <= limit ->
  maybeTruncateContent content limit = {| text := content; truncated := false |}.
Proof.
  intros Hle. unfold maybeTruncateContent.
  destruct (Z.leb_spec (bytes content) limit); [reflexivity | lia].
Qed.

Lemma maybeTruncateContent_over (content : jsstring) (limit : Z) :
  limit < bytes content ->
  maybeTruncateContent content limit =
    {| text := JS.slice content 0 (Some (Z.max 0 (limit / 2))) ++ marker
                 ++ JS.slice content (- Z.max 0 (limit / 2)) None;
       truncated := true |}.
Proof.
  intros Hlt. unfold maybeTruncateContent.
  destruct (Z.leb_spec (bytes content) limit); [lia | reflexivity].
Qed.

(** Whatever the limit, an over-limit content comes back flagged and
    with the elision marker in it. *)
Lemma maybeTruncateContent_over_has_marker (content : jsstring) (limit : Z) :
  limit < bytes content ->
  truncated (maybeTruncateContent content limit) = true /\
  includes (text (maybeTruncateContent content limit)) marker = true.
Proof.
  intros Hlt. rewrite maybeTruncateContent_over by assumption.
  cbn [text truncated]. split; [reflexivity | apply includes_app].
Qed.

(** From a limit of two bytes on, the truncator is the one of the
    specification: head and tail of [floor(limit/2)] characters. *)
Lemma maybeTruncateContent_meets_spec (content : jsstring) (limit : Z) :
  2 <= limit ->
  maybeTruncateContent content limit = TruncatorSpec.truncate_spec content limit.
Proof.
  intros Hlim. unfold TruncatorSpec.truncate_spec.
  destruct (Z.leb_spec (bytes content) limit) as [Hle|Hgt].
  - by apply maybeTruncateContent_within.
  - rewrite maybeTruncateContent_over by assumption.
    assert (Hhalf : 0 < limit / 2) by (apply Z.div_str_pos; lia).
    rewrite Z.max_r by lia.
    rewrite slice_head by lia. rewrite slice_tail by lia. reflexivity.
Qed.

(** Below two bytes [half] is [0], and [content.slice(-0)] is the whole
    content: nothing is dropped, the marker is put in front. *)
Lemma maybeTruncateContent_half_zero (content : jsstring) (limit : Z) :
  limit < 2 -> limit < bytes content ->
  maybeTruncateContent content limit =
    {| text := marker ++ content; truncated := true |}.
Proof.
  intros Hlim Hgt. rewrite maybeTruncateContent_over by assumption.
  assert (Hhalf : limit / 2 <= 0).
  { destruct (Z.le_gt_cases 0 limit).
    - rewrite Z.div_small by lia. lia.
    - assert (limit / 2 < 0) by (apply Z.div_lt_upper_bound; lia). lia. }
  rewrite Z.max_l by lia. simpl (- 0).
  rewrite slice_head by lia. rewrite slice_whole. reflexivity.
Qed.

(** C2.  For every content and limit: a content of at most [limit]
    bytes comes back unchanged with [truncated = false]; any other
    comes back with [truncated = true] and contains the marker, and,
    the limit being of two bytes at least, is the first
    [floor(limit/2)] characters of the content, the marker and the last
    [floor(limit/2)] characters.  The function is not exported, and the
    route calls it, at lines 90 and 98, with [MAX_FILE_BYTES] = 40,000
    only. *)
Theorem maybeTruncateContent_as_specified (content : jsstring) (limit : Z) :
  (bytes content <= limit ->
     maybeTruncateContent content limit = {| text := content; truncated := false |}) /\
  (limit < bytes content ->
     truncated (maybeTruncateContent content limit) = true /\
     includes (text (maybeTruncateContent content limit)) marker = true /\
     (2 <= limit ->
      maybeTruncateContent content limit =
        {| text := TruncatorSpec.first_chars (limit / 2) content ++ marker
                     ++ TruncatorSpec.last_chars (limit / 2) content;
           truncated := true |})).
Proof.
  split.
  - apply maybeTruncateContent_within.
  - intros Hover.
    destruct (maybeTruncateContent_over_has_marker content limit Hover) as [Ht Hm].
    split; [exact Ht|]. split; [exact Hm|]. intros Hlim.
    rewrite maybeTruncateContent_meets_spec by assumption.
    unfold TruncatorSpec.truncate_spec.
    destruct (Z.leb_spec (bytes content) limit); [lia | reflexivity].
Qed.

(** At the limit the route passes: a file of two bytes, and a file of
    40,001. *)
Lemma maybeTruncateContent_as_specified_witness :
  maybeTruncateContent (js "ab") MAX_FILE_BYTES =
    {| text := js "ab"; truncated := false |} /\
  maybeTruncateContent (repeat 97%N (Z.to_nat 40001)) MAX_FILE_BYTES =
    {| text := TruncatorSpec.first_chars (MAX_FILE_BYTES / 2) (repeat 97%N (Z.to_nat 40001))
                 ++ marker
                 ++ TruncatorSpec.last_chars (MAX_FILE_BYTES / 2) (repeat 97%N (Z.to_nat 40001));
       truncated := true |}.
Proof.
  split.
  - apply (maybeTruncateContent_as_specified (js "ab") MAX_FILE_BYTES).
    vm_compute. discriminate.
  - apply (maybeTruncateContent_as_specified (repeat 97%N (Z.to_nat 40001)) MAX_FILE_BYTES).
    + vm_compute. reflexivity.
    + unfold MAX_FILE_BYTES. lia.
Defined.

End AnalyzeFacts.

(* ===================================================================== *)
(** * The analyze route *)
(* ===================================================================== *)

Module AnalyzeRouteFacts.
Import JS JSFacts Analyze AnalyzeSpec AnalyzeFacts.

Section Route.
Context `{Platform}.

(** Running a computation: the case analysis behind [let!]. *)
Lemma bind_ok {A B} (m : IO A) (k : A -> IO B) w a w1 :
  m w = (Ok a, w1) -> bind m k w = k a w1.
Proof. intros Hm. unfold bind. by rewrite Hm. Qed.

Lemma bind_throw {A B} (m : IO A) (k : A -> IO B) w e w1 :
  m w = (Throw e, w1) -> bind m k w = (Throw e, w1).
Proof. intros Hm. unfold bind. by rewrite Hm. Qed.

Lemma fetch_run (rq : Request) w :
  exists res n, fetch_step rq (net w) = (res, n) /\
    fetch rq w = (res, {| net := n; trace := trace w ++ [EvFetch rq] |}).
Proof.
  unfold fetch. destruct (fetch_step rq (net w)) as [res n]. eauto.
Qed.

Lemma ghGetContent_unfold owner repo p ref w :
  ghGetContent owner repo p ref w = ghGetContent_run owner repo p ref w.
Proof.
  unfold ghGetContent, ghGetContent_run, bind, lift, fetch, throw, ret.
  destruct (encodeURIComponent p); [|reflexivity].
  destruct (encodeURIComponent ref); [|reflexivity].
  destruct (fetch_step _ (net w)) as [[res1|e] n1]; [|reflexivity].
  destruct (res_ok res1); simpl; [|reflexivity].
  destruct (res_json res1); [|reflexivity].
  destruct (is_base64_content _); [reflexivity|].
  cbn [net trace].
  destruct (fetch_step _ n1) as [[res2|e] n2]; [|reflexivity].
  destruct (res_ok res2); reflexivity.
Qed.

(** One call of [ghGetContent] makes at most two requests, both for
    its path, and nothing else. *)
Lemma ghGetContent_trace owner repo p ref w res w' :
  ghGetContent owner repo p ref w = (res, w') ->
  exists evs, trace w' = trace w ++ evs /\ requests_for owner repo ref p evs.
Proof.
  rewrite ghGetContent_unfold. unfold ghGetContent_run, requests_for.
  assert (H0 : exists evs, trace w = trace w ++ evs /\
            (length evs <= 2)%nat /\ Forall (request_for owner repo ref p) evs).
  { exists []. rewrite app_nil_r. simpl. auto. }
  destruct (encodeURIComponent p) as [epath|e] eqn:Hp;
    [|intros [= <- <-]; exact H0].
  destruct (encodeURIComponent ref) as [eref|e] eqn:Hr;
    [|intros [= <- <-]; exact H0].
  set (rq1 := {| req_url := contents_url owner repo epath eref; req_headers := gh_headers |}).
  set (rq2 := {| req_url := raw_url owner repo ref p; req_headers := gh_headers |}).
  assert (Hrq1 : request_for owner repo ref p (EvFetch rq1)) by (simpl; right; eauto).
  assert (Hrq2 : request_for owner repo ref p (EvFetch rq2)) by (simpl; by left).
  assert (H1 : forall w1 : World, trace w1 = trace w ++ [EvFetch rq1] ->
    exists evs, trace w1 = trace w ++ evs /\
      (length evs <= 2)%nat /\ Forall (request_for owner repo ref p) evs).
  { intros w1 ->. exists [EvFetch rq1]. simpl. repeat split; auto. }
  assert (H2 : forall w2 : World, trace w2 = (trace w ++ [EvFetch rq1]) ++ [EvFetch rq2] ->
    exists evs, trace w2 = trace w ++ evs /\
      (length evs <= 2)%nat /\ Forall (request_for owner repo ref p) evs).
  { intros w2 ->. exists [EvFetch rq1; EvFetch rq2].
    rewrite <- app_assoc. simpl. repeat split; auto. }
  destruct (fetch_step rq1 (net w)) as [[res1|e] n1];
    [|intros [= <- <-]; by apply H1].
  destruct (res_ok res1); [|intros [= <- <-]; by apply H1].
  destruct (res_json res1); [|intros [= <- <-]; by apply H1].
  destruct (is_base64_content _); [intros [= <- <-]; by apply H1|].
  destruct (fetch_step rq2 n1) as [[res2|e] n2];
    [|intros [= <- <-]; by apply H2].
  destruct (res_ok res2); intros [= <- <-]; by apply H2.
Qed.

(** The two failures of [fetch_failure] make [ghGetContent] throw. *)
Lemma fetch_failure_throws owner repo p ref w :
  fetch_failure owner repo p ref w ->
  exists message w', ghGetContent owner repo p ref w = (Throw message, w').
Proof.
  intros Hfail. rewrite ghGetContent_unfold. unfold ghGetContent_run.
  destruct Hfail as [epath eref res n Hp Hr Hstep Hok
                    |epath eref res n json rawRes n' Hp Hr Hstep Hok Hjson Hb64 Hraw Hrok];
    rewrite Hp, Hr; cbv zeta; rewrite Hstep, Hok.
  - eauto.
  - rewrite Hjson, Hb64, Hraw, Hrok. eauto.
Qed.

(** The loop of github mode is [fetch_all] followed by the per-file
    limit: it appends one file per path and raises the flag when some
    content was truncated. *)
Lemma fetch_loop_fetch_all owner repo ref paths :
  forall files flag w,
  fetch_loop owner repo ref paths files flag w =
    match fetch_all owner repo ref paths w with
    | (Ok contents, w') =>
        (Ok (files ++ List.map per_file (zip paths contents),
             flag || existsb (fun c => truncated (maybeTruncateContent c MAX_FILE_BYTES))
                       contents), w')
    | (Throw e, w') => (Throw e, w')
    end.
Proof.
  induction paths as [|p rest IH]; intros files flag w; simpl.
  - unfold ret. by rewrite app_nil_r, orb_false_r.
  - destruct (ghGetContent owner repo p ref w) as [[raw|e] w1] eqn:Hget.
    + rewrite !(bind_ok _ _ _ _ _ Hget), IH.
      destruct (fetch_all owner repo ref rest w1) as [[contents|e] w2] eqn:Hrest.
      * rewrite (bind_ok _ _ _ _ _ Hrest). unfold ret. simpl.
        by rewrite <- app_assoc, orb_assoc.
      * by rewrite (bind_throw _ _ _ _ _ Hrest).
    + by rewrite !(bind_throw _ _ _ _ _ Hget).
Qed.

Lemma fetch_all_length owner repo ref paths :
  forall w contents w',
  fetch_all owner repo ref paths w = (Ok contents, w') ->
  length contents = length paths.
Proof.
  induction paths as [|p rest IH]; intros w contents w'; simpl.
  - by intros [= <- <-].
  - destruct (ghGetContent owner repo p ref w) as [[raw|e] w1] eqn:Hget.
    + rewrite (bind_ok _ _ _ _ _ Hget).
      destruct (fetch_all owner repo ref rest w1) as [[cs|e] w2] eqn:Hrest.
      * rewrite (bind_ok _ _ _ _ _ Hrest). intros [= <- <-]. simpl. f_equal. eauto.
      * by rewrite (bind_throw _ _ _ _ _ Hrest).
    + by rewrite (bind_throw _ _ _ _ _ Hget).
Qed.

(** The requests of [fetch_all]: one group per path, in order, for a
    prefix of the paths. *)
Lemma fetch_all_trace owner repo ref paths :
  forall w res w',
  fetch_all owner repo ref paths w = (res, w') ->
  exists evss,
    trace w' = trace w ++ concat evss /\
    (length evss <= length paths)%nat /\
    Forall2 (requests_for owner repo ref) (take (length evss) paths) evss.
Proof.
  induction paths as [|p rest IH]; intros w res w'; simpl.
  - intros [= <- <-]. exists []. simpl. rewrite app_nil_r. auto.
  - destruct (ghGetContent owner repo p ref w) as [[raw|e] w1] eqn:Hget;
      destruct (ghGetContent_trace _ _ _ _ _ _ _ Hget) as (evs & Htr & Hevs).
    + rewrite (bind_ok _ _ _ _ _ Hget).
      destruct (fetch_all owner repo ref rest w1) as [r2 w2] eqn:Hrest.
      destruct (IH _ _ _ Hrest) as (evss & Htr2 & Hlen & Hall).
      intros Heq. assert (w' = w2) as ->.
      { destruct r2.
        - rewrite (bind_ok _ _ _ _ _ Hrest) in Heq. unfold ret in Heq. congruence.
        - rewrite (bind_throw _ _ _ _ _ Hrest) in Heq. congruence. }
      exists (evs :: evss). simpl. rewrite Htr2, Htr, <- app_assoc.
      repeat split; [lia | by constructor].
    + rewrite (bind_throw _ _ _ _ _ Hget). intros [= <- <-].
      exists [evs]. simpl. rewrite app_nil_r.
      repeat split; [done | lia |]. rewrite take_0. by constructor.
Qed.

(** A path that fails to fetch makes [fetch_all] throw what
    [ghGetContent] threw, in the world the failed call left. *)
Lemma fetch_all_abort owner repo ref pre p post :
  forall w contents w1 message w2,
  fetch_all owner repo ref pre w = (Ok contents, w1) ->
  ghGetContent owner repo p ref w1 = (Throw message, w2) ->
  fetch_all owner repo ref (pre ++ p :: post) w = (Throw message, w2).
Proof.
  induction pre as [|q pre IH]; intros w contents w1 message w2; simpl.
  - intros [= <- <-] Hget. by rewrite (bind_throw _ _ _ _ _ Hget).
  - destruct (ghGetContent owner repo q ref w) as [[raw|e] w0] eqn:Hq.
    + rewrite !(bind_ok _ _ _ _ _ Hq).
      destruct (fetch_all owner repo ref pre w0) as [[cs|e] w0'] eqn:Hpre.
      * rewrite (bind_ok _ _ _ _ _ Hpre). intros [= <- <-] Hget.
        by rewrite (bind_throw _ _ _ _ _ (IH _ _ _ _ _ Hpre Hget)).
      * by rewrite (bind_throw _ _ _ _ _ Hpre).
    + by rewrite !(bind_throw _ _ _ _ _ Hq).
Qed.

(** Lines 106-188 run in a world: the budgeter picks a prefix
    [take n files], the prompt made of it goes to the model, and the
    response reports the prefix. *)
Lemma budget_and_review_run files flag w :
  exists n : nat,
    (n <= length files)%nat /\
    sum_bytes (take n files) <= MAX_TOTAL_BYTES /\
    (forall f, files !! n = Some f ->
       sum_bytes (take n files) + bytes (content f) > MAX_TOTAL_BYTES) /\
    budget_and_review files flag w =
      let prompt := header ++ [LF] ++ render_bundle (take n files) in
      let w' m := {| net := m; trace := trace w ++ [EvGenerate prompt] |} in
      match generate_step prompt (net w) with
      | (Ok text, m) =>
          (Ok {| status := 200;
                 body := Review text (flag || (n <? length files)%nat)
                           (sum_bytes (take n files)) (Z.of_nat n) |}, w' m)
      | (Throw e, m) => (Throw e, w' m)
      end.
Proof.
  destruct (budget_loop_spec files 0 [] flag) as (n & Hn & Heq & Hcap & Hnext).
  exists n. repeat split; [lia | apply Hcap; unfold MAX_TOTAL_BYTES; lia | exact Hnext |].
  unfold budget_and_review. rewrite Heq. cbn [app Z.add].
  unfold bind, generateContent, ret. cbv zeta.
  destruct (generate_step _ (net w)) as [[text|e] m]; [|reflexivity].
  by rewrite length_take, Nat.min_l by lia.
Qed.

Lemma first_fifty_slice {A} (xs : list A) :
  slice xs 0 (Some MAX_FILES) = take 50 xs.
Proof. unfold MAX_FILES. by rewrite slice_head by lia. Qed.

Lemma snippet_files_per_file (l : list SnippetFile) :
  List.map fst (List.map snippet_file l) =
  List.map per_file
    (List.map (fun f => (or_else (snippet_path f) (js "snippet.ts"),
                         default [] (snippet_content f))) l).
Proof. rewrite !List.map_map. by apply List.map_ext. Qed.

Lemma snippet_flag_Exists (l : list SnippetFile) :
  existsb snd (List.map snippet_file l) = true <->
  Exists per_file_truncated
    (List.map (fun f => (or_else (snippet_path f) (js "snippet.ts"),
                         default [] (snippet_content f))) l).
Proof.
  induction l as [|f l IH]; simpl.
  - split; [discriminate | by intros ?%Exists_nil].
  - rewrite orb_true_iff, Exists_cons, IH. reflexivity.
Qed.

Lemma github_flag_Exists (paths contents : list jsstring) :
  length contents = length paths ->
  existsb (fun c => truncated (maybeTruncateContent c MAX_FILE_BYTES)) contents = true <->
  Exists per_file_truncated (zip paths contents).
Proof.
  revert contents; induction paths as [|p paths IH]; intros [|c cs] Hlen;
    simpl in *; try discriminate.
  - split; [discriminate | by intros ?%Exists_nil].
  - rewrite orb_true_iff, Exists_cons, IH by congruence. reflexivity.
Qed.

(** From the [try] of line 84 on, [POST] answers: whatever is thrown
    inside becomes a response of status 400. *)
Lemma POST_answers body w :
  exists resp w', POST body w = (Ok resp, w').
Proof.
  unfold POST, try_catch, ret.
  destruct (POST_try body w) as [[resp|e] w']; eauto.
Qed.

(** ** C3 *)

(** C3.  When an analyze request succeeds (the response is a review),
    there are the considered files [raws] and a number [n] of them
    that the budgeter included, the first [n] in order, such that:
    [fileCount] is [n]; [totalBytes] is the sum of the UTF-8 sizes of
    the contents of the included files, and at most 200,000; the
    [truncated] flag is [true] exactly when the per-file limit
    truncated the content of one of the considered files or the
    budgeter excluded a file ([n] is less than their number); a file
    is excluded only because it would have passed the cap; and the
    included files are the bundle that went to the model. *)
Theorem analyze_success_report (req : AnalyzeBody) w resp w' txt tr tot cnt :
  POST req w = (Ok resp, w') ->
  body resp = Review txt tr tot cnt ->
  exists (raws : list (jsstring * jsstring)) (n : nat),
    considered req w raws /\
    let files := List.map per_file raws in
    (n <= length files)%nat /\
    cnt = Z.of_nat n /\
    tot = sum_bytes (take n files) /\
    tot <= 200000 /\
    (tr = true <-> Exists per_file_truncated raws \/ (n < length files)%nat) /\
    (forall f, files !! n = Some f -> tot + bytes (content f) > 200000) /\
    last (trace w') = Some (EvGenerate (header ++ [LF] ++ render_bundle (take n files))).
Proof.
  intros Hpost Hbody. unfold POST, try_catch in Hpost.
  assert (Hfinish : forall raws flag w0,
    (flag = true <-> Exists per_file_truncated raws) ->
    match budget_and_review (List.map per_file raws) flag w0 with
    | (Ok a, w1) => (Ok a, w1)
    | (Throw e, w1) =>
        ret {| status := 400;
               body := Failure (message_or e (js "Failed to analyze")) |} w1
    end = (Ok resp, w') ->
    exists n : nat,
      let files := List.map per_file raws in
      (n <= length files)%nat /\ cnt = Z.of_nat n /\
      tot = sum_bytes (take n files) /\ tot <= 200000 /\
      (tr = true <-> Exists per_file_truncated raws \/ (n < length files)%nat) /\
      (forall f, files !! n = Some f -> tot + bytes (content f) > 200000) /\
      last (trace w') = Some (EvGenerate (header ++ [LF] ++ render_bundle (take n files)))).
  { intros raws flag w0 Hflag Hrun.
    destruct (budget_and_review_run (List.map per_file raws) flag w0)
      as (n & Hn & Hcap & Hnext & Heq).
    rewrite Heq in Hrun. cbv zeta in Hrun.
    destruct (generate_step _ (net w0)) as [[text|e] m].
    - injection Hrun as <- <-. simpl in Hbody. injection Hbody as <- <- <- <-.
      exists n. cbv zeta.
      split; [exact Hn|]. split; [reflexivity|]. split; [reflexivity|].
      split; [exact Hcap|]. split; [|split; [exact Hnext|]].
      + rewrite orb_true_iff, Hflag, Nat.ltb_lt. reflexivity.
      + cbn [trace]. apply last_snoc.
    - unfold ret in Hrun. injection Hrun as <- <-. discriminate Hbody. }
  destruct req as [files|owner repo ref paths|]; simpl in Hpost.
  - rewrite first_fifty_slice, snippet_files_per_file in Hpost.
    apply Hfinish in Hpost; [|apply snippet_flag_Exists].
    destruct Hpost as (n & Hn). eexists _, n. split; [reflexivity | exact Hn].
  - rewrite first_fifty_slice in Hpost.
    set (sel := take 50 (default [] paths)) in *.
    unfold bind in Hpost. rewrite fetch_loop_fetch_all in Hpost.
    destruct (fetch_all owner repo ref sel w) as [[contents|e] w1] eqn:Hall.
    + pose proof (fetch_all_length _ _ _ _ _ _ _ Hall) as Hlen.
      cbn [app] in Hpost.
      apply Hfinish in Hpost; [|by apply github_flag_Exists].
      destruct Hpost as (n & Hn). exists (zip sel contents), n.
      split; [|exact Hn]. exists contents, w1. auto.
    + unfold ret in Hpost. injection Hpost as <- <-. discriminate Hbody.
  - unfold ret in Hpost. injection Hpost as <- <-. discriminate Hbody.
Qed.

(** ** C6 *)

Lemma request_not_generate owner repo ref p ev :
  request_for owner repo ref p ev -> ~ is_generate ev.
Proof. destruct ev; simpl; intros Hr Hg; [exact Hg | exact Hr]. Qed.

Lemma requests_not_generate owner repo ref paths evss :
  Forall2 (requests_for owner repo ref) paths evss ->
  Forall (fun ev => ~ is_generate ev) (concat evss).
Proof.
  induction 1 as [|p evs paths evss [_ Hevs] _ IH]; simpl; [constructor|].
  apply Forall_app. split; [|exact IH].
  eapply Forall_impl; [exact Hevs|]. intros ev. apply request_not_generate.
Qed.

(** The world a github request leaves: the requests of [fetch_all] on
    the first 50 paths, then the model call if all of them were
    fetched. *)
Lemma POST_github_world owner repo ref paths w :
  exists r w1,
    fetch_all owner repo ref (take 50 (default [] paths)) w = (r, w1) /\
    match r with
    | Ok _ => exists prompt, trace (POST (Github owner repo ref paths) w).2
                             = trace w1 ++ [EvGenerate prompt]
    | Throw e =>
        POST (Github owner repo ref paths) w =
          (Ok {| status := 400;
                 body := Failure (message_or e (js "Failed to analyze")) |}, w1)
    end.
Proof.
  unfold POST, try_catch. simpl POST_try. rewrite first_fifty_slice.
  set (sel := take 50 (default [] paths)).
  unfold bind. rewrite fetch_loop_fetch_all.
  destruct (fetch_all owner repo ref sel w) as [[contents|e] w1] eqn:Hall.
  - exists (Ok contents), w1. split; [reflexivity|].
    match goal with |- context [budget_and_review ?fs ?fl w1] =>
      destruct (budget_and_review_run fs fl w1) as (n & _ & _ & _ & Heq) end.
    rewrite Heq. cbv zeta.
    destruct (generate_step _ (net w1)) as [[text|e] m]; eexists; reflexivity.
  - exists (Throw e), w1. split; reflexivity.
Qed.

(** C6.  [MAX_FILES] is 50, and a request is answered as the request
    cut off after its 50th file or path is: same response, same
    effects on the outside world.  In snippet mode this is so because
    the cut comes before the per-file limit is applied; in github mode
    the requests made are, in order, one group of at most two per
    path, for no more than the first 50 paths (so for the first 50 of
    60), followed by nothing but the model call. *)
Theorem at_most_fifty_files_considered (req : AnalyzeBody) w :
  MAX_FILES = 50 /\
  POST req w = POST (first_fifty req) w /\
  match req with
  | Snippet files =>
      POST_try req =
        budget_and_review
          (List.map fst (List.map snippet_file (take 50 (default [] files))))
          (existsb snd (List.map snippet_file (take 50 (default [] files))))
  | Github owner repo ref paths =>
      exists (evss : list (list Event)) (rest : list Event),
        trace (POST req w).2 = trace w ++ concat evss ++ rest /\
        (length evss <= 50)%nat /\
        Forall2 (requests_for owner repo ref)
          (take (length evss) (default [] paths)) evss /\
        Forall is_generate rest
  | OtherMode => True
  end.
Proof.
  split; [reflexivity|]. split.
  - destruct req as [files|owner repo ref paths|]; [| |reflexivity];
      unfold POST, POST_try, first_fifty; rewrite !first_fifty_slice;
      change (default [] (Some ?l)) with l;
      rewrite take_take, Nat.min_id; reflexivity.
  - destruct req as [files|owner repo ref paths|]; [| |exact I].
    + unfold POST_try. by rewrite first_fifty_slice.
    + destruct (POST_github_world owner repo ref paths w) as (r & w1 & Hall & Hpost).
      destruct (fetch_all_trace _ _ _ _ _ _ _ Hall) as (evss & Htr & Hlen & Hreq).
      assert (Hlen50 : (length evss <= 50)%nat).
      { rewrite length_take in Hlen. lia. }
      rewrite take_take, Nat.min_l in Hreq by lia.
      destruct r as [contents|e].
      * destruct Hpost as (prompt & Hpost). exists evss, [EvGenerate prompt].
        rewrite Hpost, Htr, <- app_assoc.
        repeat split; auto. by repeat constructor.
      * exists evss, []. rewrite Hpost. cbn [snd]. rewrite Htr, app_nil_r.
        repeat split; auto.
Qed.

(** ** C9 *)

(** Whatever [ghGetContent] throws for one of the first 50 paths ends
    the request: the answer is the error, no model call is made. *)
Lemma thrown_fetch_aborts_request owner repo ref paths w pre p post contents w1
    message w2 :
  take 50 (default [] paths) = pre ++ p :: post ->
  fetch_all owner repo ref pre w = (Ok contents, w1) ->
  ghGetContent owner repo p ref w1 = (Throw message, w2) ->
  POST (Github owner repo ref paths) w =
    (Ok {| status := 400;
           body := Failure (message_or message (js "Failed to analyze")) |}, w2) /\
  exists evs, trace w2 = trace w ++ evs /\ Forall (fun ev => ~ is_generate ev) evs.
Proof.
  intros Hsel Hpre Hget.
  pose proof (fetch_all_abort _ _ _ _ _ post _ _ _ _ _ Hpre Hget) as Hall.
  rewrite <- Hsel in Hall.
  destruct (POST_github_world owner repo ref paths w) as (r & w1' & Hall' & Hpost).
  rewrite Hall in Hall'. injection Hall' as <- <-.
  split; [exact Hpost|].
  destruct (fetch_all_trace _ _ _ _ _ _ _ Hall) as (evss & Htr & _ & Hreq).
  exists (concat evss). split; [exact Htr|]. by eapply requests_not_generate.
Qed.

(** C9.  In github mode, let [p] be one of the selected (first 50)
    paths, let the paths before it have been fetched, and let fetching
    [p] fail: the contents endpoint answers with a non-success
    response, or it answers with something other than base64 content
    and the raw endpoint answers with a non-success response.  Then
    the request is answered with status 400 and an error body, one
    that carries no review text, byte total or file count, and the
    model is never called. *)
Theorem failed_fetch_aborts_request owner repo ref paths w pre p post contents w1 :
  take 50 (default [] paths) = pre ++ p :: post ->
  fetch_all owner repo ref pre w = (Ok contents, w1) ->
  fetch_failure owner repo p ref w1 ->
  exists message w2 evs,
    POST (Github owner repo ref paths) w =
      (Ok {| status := 400; body := Failure message |}, w2) /\
    trace w2 = trace w ++ evs /\
    Forall (fun ev => ~ is_generate ev) evs.
Proof.
  intros Hsel Hpre Hfail.
  destruct (fetch_failure_throws _ _ _ _ _ Hfail) as (message & w2 & Hget).
  destruct (thrown_fetch_aborts_request _ _ _ _ _ _ _ _ _ _ _ _ Hsel Hpre Hget)
    as (Hpost & evs & Htr & Hevs).
  eauto 10.
Qed.
End Route.

(** A successful github request on the small platform, for its one
    fetchable file: one file of four bytes, nothing truncated. *)
Lemma analyze_success_report_witness :
  let req := Github (js "o") (js "r") (js "main") (Some [js "a.ts"]) in
  exists resp w',
    @POST Toy.toy req Toy.world0 = (Ok resp, w') /\
    body resp = Review (Some (js "{}")) false 4 1 /\
    exists (raws : list (jsstring * jsstring)) (n : nat),
      @considered Toy.toy req Toy.world0 raws /\
      let files := List.map per_file raws in
      (n <= length files)%nat /\
      1 = Z.of_nat n /\
      4 = sum_bytes (take n files) /\
      4 <= 200000 /\
      (false = true <-> Exists per_file_truncated raws \/ (n < length files)%nat) /\
      (forall f, files !! n = Some f -> 4 + bytes (content f) > 200000) /\
      last (trace w') = Some (EvGenerate (header ++ [LF] ++ render_bundle (take n files))).
Proof.
  intros req. eexists _, _.
  split; [vm_compute; reflexivity|]. split; [reflexivity|].
  eapply (@analyze_success_report Toy.toy req Toy.world0);
    [vm_compute; reflexivity | reflexivity].
Defined.

(** Sixty paths, all of them fetchable: fifty requests go out, then the
    model call, and fifty files are reported. *)
Example sixty_paths_fifty_fetched :
  let req := Github (js "o") (js "r") (js "main") (Some (replicate 60 (js "a.ts"))) in
  let out := @POST Toy.toy req Toy.world0 in
  length (List.filter (fun ev => match ev with EvFetch _ => true | _ => false end)
            (trace out.2)) = 50%nat /\
  length (trace out.2) = 51%nat /\
  exists text tr tot, out.1 = Ok {| status := 200; body := Review text tr tot 50 |}.
Proof.
  vm_compute. repeat split; eauto.
Qed.

(** A request on the small platform for the fetchable file and for one
    that the network does not have: the second fetch fails and the
    request with it. *)
Lemma failed_fetch_aborts_request_witness :
  exists message w2 evs,
    @POST Toy.toy (Github (js "o") (js "r") (js "main")
                     (Some [js "a.ts"; js "missing.ts"])) Toy.world0 =
      (Ok {| status := 400; body := Failure message |}, w2) /\
    trace w2 = trace Toy.world0 ++ evs /\
    Forall (fun ev => ~ is_generate ev) evs.
Proof.
  eapply (@failed_fetch_aborts_request Toy.toy (js "o") (js "r") (js "main")
            (Some [js "a.ts"; js "missing.ts"]) Toy.world0
            [js "a.ts"] (js "missing.ts") []).
  - reflexivity.
  - vm_compute. reflexivity.
  - eapply (@metadata_not_ok Toy.toy); vm_compute; reflexivity.
Defined.

End AnalyzeRouteFacts.

(* ===================================================================== *)
(** * The list-files route *)
(* ===================================================================== *)

Module ListFilesFacts.
Import JS JSFacts ListFiles ListFilesSpec.

(** ** Strings *)

Lemma lastIndexOf_from_cons (c : N) (s p : jsstring) (i : Z) :
  lastIndexOf_from (c :: s) p i =
    if 0 <=? lastIndexOf_from s p (i + 1) then lastIndexOf_from s p (i + 1)
    else if startsWith (c :: s) p then i else -1.
Proof. reflexivity. Qed.

Lemma startsWith_unit (c d : N) (s : jsstring) :
  startsWith (c :: s) [d] = (d =? c)%N.
Proof. cbn [startsWith]. destruct s; apply andb_true_r. Qed.

(** No ["."] in the string: [lastIndexOf] is [-1]. *)
Lemma lastIndexOf_absent (s : jsstring) :
  DOT ∉ s -> forall i, lastIndexOf_from s [DOT] i = -1.
Proof.
  induction s as [|c s IH]; intros Hno i; [reflexivity|].
  apply not_elem_of_cons in Hno as [Hc Hs].
  rewrite lastIndexOf_from_cons, IH by assumption.
  change (0 <=? -1) with false. cbv iota. rewrite startsWith_unit.
  destruct (N.eqb_spec DOT c); [congruence | reflexivity].
Qed.

(** The index of the last ["."]. *)
Lemma lastIndexOf_last_dot (pre suf : jsstring) :
  DOT ∉ suf ->
  forall i, 0 <= i -> lastIndexOf_from (pre ++ DOT :: suf) [DOT] i = i + len pre.
Proof.
  intros Hsuf. unfold len. induction pre as [|c pre IH]; intros i Hi.
  - cbn [app length]. rewrite lastIndexOf_from_cons, lastIndexOf_absent by assumption.
    change (0 <=? -1) with false. cbv iota.
    rewrite startsWith_unit, N.eqb_refl. simpl. lia.
  - cbn [app length]. rewrite lastIndexOf_from_cons, IH by lia.
    destruct (Z.leb_spec 0 (i + 1 + Z.of_nat (length pre))); lia.
Qed.

Lemma endsWith_last (s : jsstring) (c : N) :
  endsWith s [c] = true <-> last s = Some c.
Proof.
  unfold endsWith, len. change (Z.of_nat (length [c])) with 1.
  destruct (Z.ltb_spec (Z.of_nat (length s) - 1) 0) as [Hlt|Hge].
  - destruct s; [|simpl in Hlt; lia]. split; discriminate.
  - rewrite string_eqb_eq, last_Some.
    replace (Z.to_nat (Z.of_nat (length s) - 1)) with (length s - 1)%nat by lia.
    split.
    + intros Hd. exists (take (length s - 1) s).
      rewrite <- Hd at 1. by rewrite take_drop.
    + intros [l' ->]. rewrite length_app. simpl.
      replace (length l' + 1 - 1)%nat with (length l') by lia.
      by rewrite drop_app_length.
Qed.

Lemma ascii_lower_is_ascii (a b : jsstring) :
  ascii_lower a = b -> is_ascii b -> is_ascii a.
Proof.
  intros <-. unfold is_ascii, ascii_lower.
  induction a as [|c a IH]; simpl; intros Hb; [constructor|].
  inversion Hb as [|? ? Hc Hrest]; subst. constructor; [|by apply IH].
  unfold ascii_lower_unit in Hc.
  destruct ((65 <=? c) && (c <=? 90))%N eqn:E; [|exact Hc].
  apply andb_true_iff in E as [_ E]. apply N.leb_le in E. lia.
Qed.

Lemma skipExt_ascii_lower (e : jsstring) :
  e ∈ skipExt -> is_ascii e /\ ascii_lower e = e.
Proof.
  unfold skipExt. rewrite elem_of_list_to_set. intros He.
  repeat (apply elem_of_cons in He as [->|He];
          [split; [by repeat constructor | reflexivity]|]).
  by apply elem_of_nil in He.
Qed.

Lemma is_tree_or_blob_spec (part : option jsstring) :
  is_tree_or_blob part = true <-> part = Some (js "tree") \/ part = Some (js "blob").
Proof.
  destruct part as [s|]; simpl.
  - rewrite orb_true_iff, !string_eqb_eq. split; intros [?|?]; simplify_eq; auto.
  - split; [discriminate | intros [?|?]; discriminate].
Qed.

Lemma filter_sublist {A} (f : A -> bool) (l : list A) :
  List.filter f l `sublist_of` l.
Proof.
  induction l as [|x l IH]; simpl; [constructor|].
  destruct (f x); by constructor.
Qed.

Lemma map_sublist {A B} (f : A -> B) (l k : list A) :
  l `sublist_of` k -> List.map f l `sublist_of` List.map f k.
Proof. induction 1; simpl; by constructor. Qed.

Lemma normalize_prefix_spec (rootPath : jsstring) :
  normalize_prefix rootPath = with_trailing_slash rootPath.
Proof.
  unfold normalize_prefix, with_trailing_slash. change (js "/") with [SLASH].
  destruct (endsWith rootPath [SLASH]) eqn:E.
  - apply endsWith_last in E. by rewrite decide_True.
  - rewrite decide_False; [reflexivity|].
    intros Hl. apply endsWith_last in Hl. congruence.
Qed.

Lemma with_trailing_slash_last (rootPath : jsstring) :
  last (with_trailing_slash rootPath) = Some SLASH.
Proof.
  unfold with_trailing_slash. case_decide; [assumption | apply last_snoc].
Qed.

Lemma blob_paths_spec (t : TreeResp) (p : jsstring) :
  p ∈ blob_paths t <->
  exists e, e ∈ tree t /\ entry_type e = js "blob" /\ entry_path e = p.
Proof.
  unfold blob_paths. rewrite list_elem_of_In, in_map_iff. split.
  - intros (e & Hp & [Hin Hty]%filter_In). exists e.
    rewrite list_elem_of_In. by apply string_eqb_eq in Hty.
  - intros (e & Hin & Hty & Hp). exists e. split; [exact Hp|].
    apply filter_In. split; [by apply list_elem_of_In | by apply string_eqb_eq].
Qed.

Lemma subpath_filter_nonempty (rootPath : jsstring) (files : list jsstring) :
  rootPath <> [] ->
  subpath_filter (Some rootPath) files =
    List.filter (fun p => bool_decide (with_trailing_slash rootPath `prefix_of` p)) files.
Proof.
  intros Hne. unfold subpath_filter.
  destruct rootPath as [|c rp]; [done|].
  change (truthy (c :: rp)) with true.
  replace (len (c :: rp) =? 0) with false
    by (symmetry; apply Z.eqb_neq; unfold len; simpl; lia).
  cbn [andb negb]. rewrite List.map_id, normalize_prefix_spec.
  apply List.filter_ext. intros p.
  destruct (startsWith p (with_trailing_slash (c :: rp))) eqn:E.
  - apply startsWith_prefix in E. by rewrite bool_decide_eq_true_2.
  - rewrite bool_decide_eq_false_2; [reflexivity|].
    intros Hp. apply startsWith_prefix in Hp. congruence.
Qed.

Lemma subpath_filter_empty (rootPath : option jsstring) (files : list jsstring) :
  rootPath = None \/ rootPath = Some [] -> subpath_filter rootPath files = files.
Proof. by intros [-> | ->]. Qed.

Lemma subpath_filter_sublist (rootPath : option jsstring) (files : list jsstring) :
  subpath_filter rootPath files `sublist_of` files.
Proof.
  unfold subpath_filter. destruct rootPath as [rp|]; [|reflexivity].
  destruct (truthy rp && negb (len rp =? 0)); [|reflexivity].
  rewrite List.map_id. apply filter_sublist.
Qed.

(** ** C8 *)

(** C8.  Of a tree listing, the paths kept by lines 64-69 are those of
    the entries of type ["blob"] and of no other entry; with a non-empty
    sub-path they are exactly the blob paths that start with the
    sub-path made to end in ["/"]; and they come in the order of the
    tree listing: the blob paths and their selection by the sub-path are
    order-preserving selections of the paths of the listing. *)
Theorem blob_and_subpath_filter (t : TreeResp) :
  (forall p, p ∈ blob_paths t <->
     exists e, e ∈ tree t /\ entry_type e = js "blob" /\ entry_path e = p) /\
  (forall rootPath, rootPath <> [] ->
     last (with_trailing_slash rootPath) = Some SLASH /\
     subpath_filter (Some rootPath) (blob_paths t) =
       List.filter (fun p => bool_decide (with_trailing_slash rootPath `prefix_of` p))
         (blob_paths t) /\
     (forall p, p ∈ subpath_filter (Some rootPath) (blob_paths t) <->
        p ∈ blob_paths t /\ with_trailing_slash rootPath `prefix_of` p)) /\
  blob_paths t `sublist_of` List.map entry_path (tree t) /\
  (forall rootPath,
     subpath_filter rootPath (blob_paths t) `sublist_of` List.map entry_path (tree t)).
Proof.
  assert (Hblob : blob_paths t `sublist_of` List.map entry_path (tree t))
    by apply map_sublist, filter_sublist.
  split; [apply blob_paths_spec|]. split; [|split; [exact Hblob|]].
  - intros rootPath Hne. split; [apply with_trailing_slash_last|].
    split; [by apply subpath_filter_nonempty|].
    intros p. rewrite subpath_filter_nonempty by assumption.
    rewrite !list_elem_of_In, filter_In, bool_decide_eq_true. reflexivity.
  - intros rootPath. etransitivity; [apply subpath_filter_sublist | exact Hblob].
Qed.

Section Route.
Context `{Platform}.

(** The reference of an address of host [github.com] with at least two
    path segments, in terms of the segments. *)
Lemma parseGitHubUrl_parts url u (owner repo : jsstring) rest :
  URL_new url = Ok u ->
  hostname u = js "github.com" ->
  segments (pathname u) = owner :: repo :: rest ->
  parseGitHubUrl url =
    if is_tree_or_blob ((owner :: repo :: rest) !! 2%nat)
    then Ok {| owner := owner; repo := repo; ref := (owner :: repo :: rest) !! 3%nat;
               path := Some (join (js "/") (drop 4 (owner :: repo :: rest))) |}
    else Ok {| owner := owner; repo := repo; ref := None; path := None |}.
Proof.
  intros Hurl Hhost Hparts.
  unfold parseGitHubUrl, parseGitHubUrl_try. rewrite Hurl, Hhost, string_eqb_refl.
  cbn [negb]. rewrite slice_from by lia. change (Z.to_nat 4) with 4%nat.
  rewrite Hparts.
  by destruct (is_tree_or_blob ((owner :: repo :: rest) !! 2%nat)).
Qed.

(** ** C4 *)

(** C4.  Let [url] parse as a URL of host [github.com] whose path has
    the non-empty segments [parts], at least two of them: [owner],
    [repo], and what follows.  If the third segment is neither
    ["tree"] nor ["blob"], or there is none, the parser returns
    [owner] and [repo] without [ref] and [path].  If it is ["tree"] or
    ["blob"], the parser returns the fourth segment as [ref] and the
    segments after it, joined by ["/"], as [path]; so for the segments
    [owner], [repo], ["tree"], [r], [a], [b] it returns [ref = r] and
    [path = a/b]. *)
Theorem parseGitHubUrl_reference url u (owner repo : jsstring) rest :
  URL_new url = Ok u ->
  hostname u = js "github.com" ->
  segments (pathname u) = owner :: repo :: rest ->
  let parts := segments (pathname u) in
  (parts !! 2%nat <> Some (js "tree") -> parts !! 2%nat <> Some (js "blob") ->
     parseGitHubUrl url =
       Ok {| owner := owner; repo := repo; ref := None; path := None |}) /\
  (parts !! 2%nat = Some (js "tree") \/ parts !! 2%nat = Some (js "blob") ->
     parseGitHubUrl url =
       Ok {| owner := owner; repo := repo; ref := parts !! 3%nat;
             path := Some (join (js "/") (drop 4 parts)) |}) /\
  (forall r a b, rest = [js "tree"; r; a; b] ->
     parseGitHubUrl url =
       Ok {| owner := owner; repo := repo; ref := Some r;
             path := Some (a ++ js "/" ++ b) |}).
Proof.
  intros Hurl Hhost Hparts parts.
  pose proof (parseGitHubUrl_parts url u owner repo rest Hurl Hhost Hparts) as Hparse.
  unfold parts. rewrite Hparts.
  repeat split.
  - intros Ht Hb. rewrite Hparse.
    destruct (is_tree_or_blob ((owner :: repo :: rest) !! 2%nat)) eqn:E; [|reflexivity].
    apply is_tree_or_blob_spec in E as [?|?]; contradiction.
  - intros Htb. rewrite Hparse.
    by apply is_tree_or_blob_spec in Htb as ->.
  - intros r a b ->. rewrite Hparse. reflexivity.
Qed.

(** ** The route, run in a world *)

Lemma message_or_truthy (message fallback : jsstring) :
  fallback <> [] -> message_or message fallback <> [].
Proof. unfold message_or. by destruct message. Qed.

Lemma message_or_idem (message fallback fallback' : jsstring) :
  fallback <> [] ->
  message_or (message_or message fallback) fallback' = message_or message fallback.
Proof. unfold message_or. destruct message; [by destruct fallback | reflexivity]. Qed.

(** What [parseGitHubUrl] throws is never the empty message. *)
Lemma parseGitHubUrl_message url message :
  parseGitHubUrl url = Throw message ->
  exists m, message = message_or m (js "Invalid URL").
Proof.
  unfold parseGitHubUrl. destruct (parseGitHubUrl_try url); [discriminate|].
  intros [= <-]. eauto.
Qed.

Lemma gh_unfold path w :
  gh path w =
    let rq := {| req_url := GH_API ++ path; req_headers := gh_headers |} in
    let w1 n := {| net := n; trace := trace w ++ [EvFetch rq] |} in
    match fetch_step rq (net w) with
    | (Throw e, n) => (Throw e, w1 n)
    | (Ok res, n) =>
        if res_ok res then (res_json res, w1 n)
        else (Throw (js "GitHub API error " ++ number_to_string (res_status res)
                       ++ js ": " ++ text_or_empty res), w1 n)
    end.
Proof.
  unfold gh, bind, fetch, throw, lift. cbv zeta.
  destruct (fetch_step _ (net w)) as [[res|e] n]; [|reflexivity].
  by destruct (res_ok res).
Qed.

Lemma gh_ok path w j w' :
  gh path w = (Ok j, w') <->
  gh_returns path (net w) j (net w') /\
  trace w' = trace w ++ [EvFetch {| req_url := GH_API ++ path;
                                    req_headers := gh_headers |}].
Proof.
  rewrite gh_unfold. cbv zeta. unfold gh_returns. split.
  - destruct (fetch_step _ (net w)) as [[res|e] n]; [|discriminate].
    destruct (res_ok res) eqn:Hok; [|discriminate].
    intros [= Hj <-]. simpl. eauto 10.
  - intros [(res & Hstep & Hok & Hj) Htr]. rewrite Hstep, Hok, Hj.
    destruct w' as [n' tr']. simpl in *. by subst.
Qed.

Lemma POST_truthy url :
  truthy url = true ->
  POST (Some url) =
    try_catch (POST_try url)
      (fun message =>
         ret {| status := 400;
                body := Failure (message_or message (js "Failed to list files")) |}).
Proof. intros Hurl. unfold POST. by rewrite Hurl. Qed.

Lemma POST_falsy url w :
  truthy url = false ->
  POST (Some url) w =
    (Ok {| status := 400; body := Failure (js "repoUrl is required") |}, w).
Proof. intros Hurl. unfold POST. by rewrite Hurl. Qed.

(** A refused reference is answered without any call to the network. *)
Lemma POST_refused url message w :
  parseGitHubUrl url = Throw message ->
  POST (Some url) w =
    (Ok {| status := 400;
           body := Failure (if truthy url then message else js "repoUrl is required") |},
     w).
Proof.
  intros Hparse. destruct (truthy url) eqn:Hurl; [|by apply POST_falsy].
  rewrite POST_truthy by assumption.
  unfold try_catch, POST_try, bind, lift, ret.
  rewrite Hparse.
  destruct (parseGitHubUrl_message _ _ Hparse) as [m ->].
  by rewrite message_or_idem.
Qed.

(** With a reference and two successful answers of the service, the
    route answers with the listing. *)
Lemma POST_listing url parsed w j1 n1 eref j2 n2 :
  url <> [] ->
  parseGitHubUrl url = Ok parsed ->
  gh_returns (repo_path (owner parsed) (repo parsed)) (net w) j1 n1 ->
  let rf := or_else (ref parsed) (default_branch (as_RepoInfo j1)) in
  encodeURIComponent rf = Ok eref ->
  gh_returns (tree_path (owner parsed) (repo parsed) eref) n1 j2 n2 ->
  exists w',
    POST (Some url) w =
      (Ok {| status := 200;
             body := Listing (owner parsed) (repo parsed) rf (path parsed)
                       (filter_files (path parsed) (as_TreeResp j2)) |}, w') /\
    net w' = n2.
Proof.
  intros Hurl Hparse Hrepo rf Heref Htree.
  rewrite POST_truthy by (by destruct url).
  set (w1 := {| net := n1;
                trace := trace w ++ [EvFetch {| req_url := GH_API ++ repo_path (owner parsed) (repo parsed);
                                                 req_headers := gh_headers |}] |}).
  assert (H1 : gh (repo_path (owner parsed) (repo parsed)) w = (Ok j1, w1))
    by (apply gh_ok; split; [exact Hrepo | reflexivity]).
  set (w2 := {| net := n2;
                trace := trace w1 ++ [EvFetch {| req_url := GH_API ++ tree_path (owner parsed) (repo parsed) eref;
                                                  req_headers := gh_headers |}] |}).
  assert (H2 : gh (tree_path (owner parsed) (repo parsed) eref) w1 = (Ok j2, w2))
    by (apply gh_ok; split; [exact Htree | reflexivity]).
  exists w2. split; [|reflexivity].
  unfold try_catch, POST_try. unfold bind at 1, lift at 1. rewrite Hparse.
  cbv zeta. unfold repo_path in H1. unfold bind at 1. rewrite H1.
  fold rf. unfold bind at 1, lift at 1. rewrite Heref.
  unfold tree_path in H2. unfold bind. rewrite H2. reflexivity.
Qed.

(** Conversely, a listing in the answer comes from a reference and two
    successful answers of the service. *)
Lemma POST_listing_inv url w resp w' o r rf rp files :
  POST (Some url) w = (Ok resp, w') ->
  body resp = Listing o r rf rp files ->
  exists parsed j1 n1 eref j2,
    parseGitHubUrl url = Ok parsed /\
    o = owner parsed /\ r = repo parsed /\ rp = path parsed /\
    gh_returns (repo_path o r) (net w) j1 n1 /\
    rf = or_else (ref parsed) (default_branch (as_RepoInfo j1)) /\
    encodeURIComponent rf = Ok eref /\
    gh_returns (tree_path o r eref) n1 j2 (net w') /\
    files = filter_files rp (as_TreeResp j2).
Proof.
  destruct (truthy url) eqn:Hurl.
  2:{ rewrite POST_falsy by assumption. intros [= <- <-]. discriminate. }
  rewrite POST_truthy by assumption.
  unfold try_catch, POST_try. unfold bind at 1, lift at 1.
  destruct (parseGitHubUrl url) as [parsed|e].
  2:{ unfold ret. intros [= <- <-]. discriminate. }
  cbv zeta. unfold bind at 1.
  destruct (gh _ w) as [[j1|e] w1] eqn:H1.
  2:{ unfold ret. intros [= <- <-]. discriminate. }
  unfold bind at 1, lift at 1.
  destruct (encodeURIComponent _) as [eref|e] eqn:Heref.
  2:{ unfold ret. intros [= <- <-]. discriminate. }
  unfold bind.
  destruct (gh _ w1) as [[j2|e] w2] eqn:H2.
  2:{ unfold ret. intros [= <- <-]. discriminate. }
  unfold ret. intros [= <- <-]. simpl. intros [= <- <- <- <- <-].
  apply gh_ok in H1 as [H1 _]. apply gh_ok in H2 as [H2 _].
  exists parsed, j1, (net w1), eref, j2. repeat split; assumption.
Qed.

(** ** C5 *)

(** C5, as the code has it.  A string that is not a URL, or whose
    host is not [github.com], or whose path has fewer than two
    non-empty segments, is refused: [parseGitHubUrl] throws a
    non-empty message, and the route answers with status 400 and an
    error body, without any call to the network.  When it is the host
    that is wrong, as for [https://gitlab.com/x/y], the message is
    the fixed text "Only github.com links are supported": it names
    the one supported host, not the host that was refused. *)
Theorem invalid_reference_refused url w :
  invalid_reference url ->
  (exists message,
     parseGitHubUrl url = Throw message /\ message <> [] /\
     POST (Some url) w =
       (Ok {| status := 400;
              body := Failure (if truthy url then message
                               else js "repoUrl is required") |}, w)) /\
  (forall u, URL_new url = Ok u -> hostname u <> js "github.com" ->
     parseGitHubUrl url = Throw (js "Only github.com links are supported")).
Proof.
  intros Hinv.
  assert (Hhost : forall u, URL_new url = Ok u -> hostname u <> js "github.com" ->
            parseGitHubUrl url = Throw (js "Only github.com links are supported")).
  { intros u Hu Hne. unfold parseGitHubUrl, parseGitHubUrl_try. rewrite Hu.
    apply string_eqb_neq in Hne. by rewrite Hne. }
  split; [|exact Hhost].
  assert (Hthrow : exists message, parseGitHubUrl url = Throw message /\ message <> []).
  { unfold invalid_reference in Hinv.
    destruct (URL_new url) as [u|e] eqn:Hu.
    - destruct (decide (hostname u = js "github.com")) as [Heq|Hne].
      + destruct Hinv as [Hne|Hlen]; [contradiction|].
        exists (js "Invalid repository URL"). split; [|discriminate].
        unfold parseGitHubUrl, parseGitHubUrl_try.
        rewrite Hu, Heq, string_eqb_refl. cbn [negb].
        destruct (segments (pathname u)) as [|a [|b rest]];
          [reflexivity | reflexivity | simpl in Hlen; lia].
      + exists (js "Only github.com links are supported").
        split; [eauto | discriminate].
    - exists (message_or e (js "Invalid URL")).
      split; [|by apply message_or_truthy].
      unfold parseGitHubUrl, parseGitHubUrl_try. by rewrite Hu. }
  destruct Hthrow as (message & Hparse & Hne).
  exists message. repeat split; [exact Hparse | exact Hne | by apply POST_refused].
Qed.

(** ** C7 *)

Lemma keep_extension_denylisted p :
  denylisted p -> keep_extension p = false.
Proof.
  intros (pre & suf & e & -> & Hsuf & He & Hci).
  destruct (skipExt_ascii_lower e He) as [Hascii Hlow].
  unfold same_ignoring_case in Hci. rewrite Hlow in Hci.
  unfold keep_extension. change (js ".") with [DOT].
  unfold lastIndexOf. rewrite lastIndexOf_last_dot by (assumption || lia).
  unfold len. rewrite Z.add_0_l.
  destruct (Z.eqb_spec (Z.of_nat (length pre)) (-1)) as [Hneg|_]; [lia|].
  rewrite slice_from by lia. rewrite Nat2Z.id, drop_app_length.
  rewrite toLowerCase_ascii by (eapply ascii_lower_is_ascii; eauto).
  rewrite Hci. by rewrite bool_decide_eq_true_2.
Qed.

Lemma keep_extension_no_dot p :
  DOT ∉ p -> keep_extension p = true.
Proof.
  intros Hno. unfold keep_extension, lastIndexOf. change (js ".") with [DOT].
  by rewrite lastIndexOf_absent.
Qed.

Lemma elem_of_filter_files rootPath t p :
  p ∈ filter_files rootPath t <->
  p ∈ subpath_filter rootPath (blob_paths t) /\ keep_extension p = true.
Proof. unfold filter_files. by rewrite !list_elem_of_In, filter_In. Qed.

(** C7.  A path whose extension, the part from its last ["."] on, is
    on the denylist up to the case of its letters (as [.png] and
    [.PNG] are) is rejected by the extension filter, is in no filtered
    listing, and in no answer of the route; a path without any ["."]
    passes the extension filter and is in the filtered listing
    whenever it has come through the filters before. *)
Theorem extension_filter :
  (forall p, denylisted p -> keep_extension p = false) /\
  (forall rootPath t p, denylisted p -> p ∉ filter_files rootPath t) /\
  (forall url w resp w' o r rf rp files p,
     POST (Some url) w = (Ok resp, w') -> body resp = Listing o r rf rp files ->
     denylisted p -> p ∉ files) /\
  (forall p, DOT ∉ p -> keep_extension p = true) /\
  (forall rootPath t p, DOT ∉ p ->
     p ∈ subpath_filter rootPath (blob_paths t) -> p ∈ filter_files rootPath t) /\
  denylisted (js "img/logo.png") /\ denylisted (js "img/logo.PNG").
Proof.
  assert (Hdrop : forall rootPath t p, denylisted p -> p ∉ filter_files rootPath t).
  { intros rootPath t p Hp [_ Hkeep]%elem_of_filter_files.
    rewrite keep_extension_denylisted in Hkeep by assumption. discriminate. }
  split; [exact keep_extension_denylisted|]. split; [exact Hdrop|].
  split.
  { intros url w resp w' o r rf rp files p Hpost Hbody Hp.
    destruct (POST_listing_inv _ _ _ _ _ _ _ _ _ Hpost Hbody)
      as (parsed & j1 & n1 & eref & j2 & _ & _ & _ & _ & _ & _ & _ & _ & ->).
    by apply Hdrop. }
  split; [exact keep_extension_no_dot|]. split.
  { intros rootPath t p Hno Hin. apply elem_of_filter_files.
    split; [exact Hin | by apply keep_extension_no_dot]. }
  split.
  - exists (js "img/logo"), (js "png"), (js ".png").
    split; [reflexivity|]. split; [|split; [|reflexivity]].
    + intros Hin. repeat (apply elem_of_cons in Hin as [Hin|Hin]; [discriminate|]).
      by apply elem_of_nil in Hin.
    + unfold skipExt. apply elem_of_list_to_set. simpl. by repeat constructor.
  - exists (js "img/logo"), (js "PNG"), (js ".png").
    split; [reflexivity|]. split; [|split; [|reflexivity]].
    + intros Hin. repeat (apply elem_of_cons in Hin as [Hin|Hin]; [discriminate|]).
      by apply elem_of_nil in Hin.
    + unfold skipExt. apply elem_of_list_to_set. simpl. by repeat constructor.
Qed.

(** What the route reports is what is left of the blob paths after
    the sub-path filter and the extension filter, in their order. *)
Lemma filter_files_spec rootPath t p :
  filter_files rootPath t `sublist_of` subpath_filter rootPath (blob_paths t) /\
  (p ∈ filter_files rootPath t <->
   p ∈ subpath_filter rootPath (blob_paths t) /\ keep_extension p = true).
Proof. split; [apply filter_sublist | apply elem_of_filter_files]. Qed.

(** ** C10 *)

Lemma segments_truthy pathname s :
  s ∈ segments pathname -> truthy s = true.
Proof. unfold segments. rewrite list_elem_of_In, filter_In. tauto. Qed.

(** C10.  Let [url] parse as a URL of host [github.com] whose path has
    the segments [owner], [repo], ["tree"] or ["blob"], and at most
    one more.  The parser returns the empty string as [path], present
    rather than absent, and the fourth segment if there is one as
    [ref].  With an empty sub-path the sub-path filter keeps every
    path.  So when the service answers the two requests of the lister,
    the route reports every blob path that passes the extension
    filter, and as [ref] the fourth segment, or the default branch of
    the repository when the address stops at ["tree"] or ["blob"]. *)
Theorem tree_url_without_subpath url u (owner repo kind : jsstring) rest
    w j1 n1 eref j2 n2 :
  url <> [] ->
  URL_new url = Ok u ->
  hostname u = js "github.com" ->
  segments (pathname u) = owner :: repo :: kind :: rest ->
  kind = js "tree" \/ kind = js "blob" ->
  (length rest <= 1)%nat ->
  let rf := match rest with
            | [] => default_branch (as_RepoInfo j1)
            | r :: _ => r
            end in
  gh_returns (repo_path owner repo) (net w) j1 n1 ->
  encodeURIComponent rf = Ok eref ->
  gh_returns (tree_path owner repo eref) n1 j2 n2 ->
  parseGitHubUrl url =
    Ok {| owner := owner; repo := repo; ref := head rest; path := Some [] |} /\
  (forall files, subpath_filter (Some []) files = files) /\
  exists w',
    POST (Some url) w =
      (Ok {| status := 200;
             body := Listing owner repo rf (Some [])
                       (List.filter keep_extension (blob_paths (as_TreeResp j2))) |},
       w') /\
    net w' = n2.
Proof.
  intros Hurl Hu Hhost Hparts Hkind Hlen rf Hrepo Heref Htree.
  assert (Hparse : parseGitHubUrl url =
    Ok {| owner := owner; repo := repo; ref := head rest; path := Some [] |}).
  { rewrite (parseGitHubUrl_parts url u owner repo (kind :: rest) Hu Hhost Hparts).
    replace (is_tree_or_blob ((owner :: repo :: kind :: rest) !! 2%nat)) with true
      by (symmetry; apply is_tree_or_blob_spec; simpl;
          destruct Hkind as [Hk | Hk]; rewrite Hk; auto).
    destruct rest as [|r [|r' rest]]; [reflexivity | reflexivity |].
    simpl in Hlen. lia. }
  split; [exact Hparse|]. split; [reflexivity|].
  assert (Hrf : or_else (head rest) (default_branch (as_RepoInfo j1)) = rf).
  { subst rf. destruct rest as [|r rest]; [reflexivity|]. simpl.
    rewrite (segments_truthy (pathname u) r); [reflexivity|].
    rewrite Hparts, !elem_of_cons. auto. }
  destruct (POST_listing url _ w j1 n1 eref j2 n2 Hurl Hparse) as (w' & Hpost & Hnet);
    cbn [ListFiles.owner ListFiles.repo ListFiles.ref ListFiles.path];
    try rewrite Hrf; try assumption.
  exists w'. split; [|exact Hnet].
  rewrite Hpost. cbn [ListFiles.owner ListFiles.repo ListFiles.ref ListFiles.path].
  rewrite Hrf. reflexivity.
Qed.
End Route.


(** The address of the form [.../tree/<ref>/<a>/<b>] on the small
    platform. *)
Lemma parseGitHubUrl_reference_witness :
  @parseGitHubUrl Toy.toy (js "https://github.com/o/r/tree/main/a/b") =
    Ok {| owner := js "o"; repo := js "r"; ref := Some (js "main");
          path := Some (js "a/b") |}.
Proof.
  destruct (@parseGitHubUrl_reference Toy.toy
              (js "https://github.com/o/r/tree/main/a/b")
              {| hostname := js "github.com"; pathname := js "/o/r/tree/main/a/b" |}
              (js "o") (js "r") [js "tree"; js "main"; js "a"; js "b"]
              eq_refl eq_refl eq_refl) as (_ & _ & Hform).
  exact (Hform (js "main") (js "a") (js "b") eq_refl).
Defined.

(** [https://gitlab.com/x/y] on the small platform: refused for its
    host, with the fixed message. *)
Lemma invalid_reference_refused_witness :
  (exists message,
     @parseGitHubUrl Toy.toy (js "https://gitlab.com/x/y") = Throw message /\
     message <> [] /\
     @POST Toy.toy (Some (js "https://gitlab.com/x/y")) Toy.world0 =
       (Ok {| status := 400;
              body := Failure (if truthy (js "https://gitlab.com/x/y") then message
                               else js "repoUrl is required") |}, Toy.world0)) /\
  (forall u, @URL_new Toy.toy (js "https://gitlab.com/x/y") = Ok u ->
     hostname u <> js "github.com" ->
     @parseGitHubUrl Toy.toy (js "https://gitlab.com/x/y") =
       Throw (js "Only github.com links are supported")).
Proof.
  apply (@invalid_reference_refused Toy.toy (js "https://gitlab.com/x/y") Toy.world0).
  left. discriminate.
Defined.

(** C5 as stated fails on [https://gitlab.com/x/y]: the request is
    refused, but the error does not name the refused host; its message
    mentions neither ["gitlab.com"] nor ["gitlab"]. *)
Lemma gitlab_error_does_not_name_the_host :
  exists message,
    @POST Toy.toy (Some (js "https://gitlab.com/x/y")) Toy.world0 =
      (Ok {| status := 400; body := Failure message |}, Toy.world0) /\
    message = js "Only github.com links are supported" /\
    includes message (js "gitlab.com") = false /\
    includes message (js "gitlab") = false.
Proof.
  eexists. split; [vm_compute; reflexivity|]. repeat split.
Qed.

(** [https://github.com/o/r/tree] on the small platform: the default
    branch [main] is reported, the sub-path is the empty string, and
    the listing has every blob path but the picture. *)
Lemma tree_url_without_subpath_witness :
  @parseGitHubUrl Toy.toy (js "https://github.com/o/r/tree") =
    Ok {| owner := js "o"; repo := js "r"; ref := None; path := Some [] |} /\
  (forall files, subpath_filter (Some []) files = files) /\
  exists w',
    @POST Toy.toy (Some (js "https://github.com/o/r/tree")) Toy.world0 =
      (Ok {| status := 200;
             body := Listing (js "o") (js "r") (js "main") (Some [])
                       [js "README"; js "src/a.ts"; js "docs/x.md"] |}, w') /\
    @net Toy.toy w' = 2%nat.
Proof.
  apply (@tree_url_without_subpath Toy.toy (js "https://github.com/o/r/tree")
           {| hostname := js "github.com"; pathname := js "/o/r/tree" |}
           (js "o") (js "r") (js "tree") [] Toy.world0
           (Toy.JRepo {| default_branch := js "main" |}) 1%nat (js "main")
           (Toy.JTree Toy.toy_tree) 2%nat).
  - discriminate.
  - reflexivity.
  - reflexivity.
  - reflexivity.
  - by left.
  - simpl. lia.
  - eexists. repeat split; vm_compute; reflexivity.
  - reflexivity.
  - eexists. repeat split; vm_compute; reflexivity.
Defined.

End ListFilesFacts.

(* ===================================================================== *)
(** * More on the truncator and the budgeter *)
(* ===================================================================== *)

Module TruncatorFacts.
Import JS JSFacts Analyze AnalyzeFacts.

(** ** Byte length against length *)

Lemma utf8_length_bounds_aux (s : jsstring) :
  (len s <= utf8_length s <= 3 * len s) /\
  (forall c, len (c :: s) <= utf8_length (c :: s) <= 3 * len (c :: s)).
Proof.
  unfold len. induction s as [|d s [IH1 IH2]].
  - split; [simpl; lia|]. intros c. simpl.
    destruct (c <? 128)%N; [lia|]. destruct (c <? 2048)%N; [lia|].
    destruct (is_high_surrogate c); lia.
  - split; [apply IH2|]. intros c.
    specialize (IH2 d).
    change (utf8_length (c :: d :: s)) with
      (if (c <? 0x80)%N then 1 + utf8_length (d :: s)
       else if (c <? 0x800)%N then 2 + utf8_length (d :: s)
       else if is_high_surrogate c then
              if is_low_surrogate d then 4 + utf8_length s
              else 3 + utf8_length (d :: s)
            else 3 + utf8_length (d :: s)).
    cbn [length] in *.
    destruct (c <? 0x80)%N; [lia|]. destruct (c <? 0x800)%N; [lia|].
    destruct (is_high_surrogate c); [|lia].
    destruct (is_low_surrogate d); lia.
Qed.

Lemma utf8_length_ascii (s : jsstring) :
  is_ascii s -> utf8_length s = len s.
Proof.
  unfold len, is_ascii. induction 1 as [|c s Hc _ IH]; [reflexivity|].
  cbn [utf8_length length]. apply N.ltb_lt in Hc. rewrite Hc, IH. lia.
Qed.

Lemma bytes_bounds (str : jsstring) : len str <= bytes str <= 3 * len str.
Proof. apply utf8_length_bounds_aux. Qed.

Lemma bytes_ascii (str : jsstring) : is_ascii str -> bytes str = len str.
Proof. apply utf8_length_ascii. Qed.

(** X1.  The UTF-8 size of a string is at least its length in code units,
    at most three times that, and equal to it for ASCII text; only the
    empty string has size 0. *)
Theorem bytes_between_length_and_thrice (str : jsstring) :
  len str <= bytes str <= 3 * len str /\
  (is_ascii str -> bytes str = len str) /\
  (bytes str = 0 <-> str = []).
Proof.
  pose proof (bytes_bounds str) as Hb.
  split; [exact Hb|]. split; [apply bytes_ascii|].
  split.
  - intros H0. destruct str; [reflexivity|]. unfold len in Hb. simpl length in Hb. lia.
  - intros ->. reflexivity.
Qed.


(** ** What truncation returns *)

Lemma marker_length : len marker = 51.
Proof. reflexivity. Qed.

Lemma half_pos (limit : Z) : 2 <= limit -> 0 < limit / 2 /\ 2 * (limit / 2) <= limit.
Proof.
  intros Hl. split; [apply Z.div_str_pos; lia|].
  apply Z.mul_div_le. lia.
Qed.

(** The text returned for an over-limit content, from a limit of two
    bytes on, measured in code units. *)
Lemma truncated_text_length (content : jsstring) (limit : Z) :
  2 <= limit -> limit < bytes content ->
  len (text (maybeTruncateContent content limit)) =
    2 * Z.min (limit / 2) (len content) + 51.
Proof.
  intros Hl Hover. destruct (half_pos limit Hl) as [Hpos _].
  rewrite maybeTruncateContent_meets_spec by assumption.
  unfold TruncatorSpec.truncate_spec, TruncatorSpec.first_chars, TruncatorSpec.last_chars.
  destruct (Z.leb_spec (bytes content) limit); [lia|]. cbn [text].
  unfold len. rewrite !length_app, length_take, length_drop.
  change (length marker) with 51%nat. lia.
Qed.

Lemma truncated_text_len_bound (content : jsstring) (limit : Z) :
  2 <= limit -> len (text (maybeTruncateContent content limit)) <= limit + 51.
Proof.
  intros Hl. destruct (half_pos limit Hl) as [Hpos Hhalf].
  pose proof (bytes_bounds content) as Hc.
  destruct (Z.le_gt_cases (bytes content) limit) as [Hin|Hover].
  - rewrite maybeTruncateContent_within by assumption. cbn [text]. lia.
  - rewrite truncated_text_length by lia. lia.
Qed.

Lemma truncated_text_ascii (content : jsstring) (limit : Z) :
  2 <= limit -> is_ascii content ->
  is_ascii (text (maybeTruncateContent content limit)).
Proof.
  intros Hl Ha. unfold is_ascii in *.
  rewrite maybeTruncateContent_meets_spec by assumption.
  unfold TruncatorSpec.truncate_spec, TruncatorSpec.first_chars,
    TruncatorSpec.last_chars.
  destruct (Z.leb_spec (bytes content) limit); [assumption|]. cbn [text].
  repeat apply Forall_app_2.
  - by apply Forall_take.
  - unfold marker, LF. apply Forall_cons. split; [done|].
    apply Forall_app_2; by repeat constructor.
  - by apply Forall_drop.
Qed.

(** What the per-file limit of 40,000 bytes lets through has at most
    120,153 bytes. *)
Lemma per_file_limit_bound (content : jsstring) :
  bytes (text (maybeTruncateContent content MAX_FILE_BYTES)) <= 120153.
Proof.
  pose proof (truncated_text_len_bound content MAX_FILE_BYTES) as Hlen.
  pose proof (bytes_bounds (text (maybeTruncateContent content MAX_FILE_BYTES))) as Hb.
  unfold MAX_FILE_BYTES in *. lia.
Qed.

(** X2.  The per-file limit bounds what it returns.  From a limit of two
    bytes on, the returned text has at most [limit + 51] code units,
    hence at most [3 * (limit + 51)] bytes; an ASCII content comes back
    with at most [limit + 51] bytes, and with exactly
    [2 * floor(limit/2) + 51] when it was over the limit. *)
Theorem truncated_text_is_bounded (content : jsstring) (limit : Z) :
  2 <= limit ->
  let t := text (maybeTruncateContent content limit) in
  len t <= limit + 51 /\
  bytes t <= 3 * (limit + 51) /\
  (is_ascii content -> bytes t <= limit + 51) /\
  (is_ascii content -> limit < bytes content -> bytes t = 2 * (limit / 2) + 51).
Proof.
  intros Hl t.
  pose proof (truncated_text_len_bound content limit Hl) as Hlen. fold t in Hlen.
  pose proof (bytes_bounds t) as Ht.
  split; [exact Hlen|]. split; [lia|]. split.
  - intros Ha. rewrite (bytes_ascii t) by (by apply truncated_text_ascii). exact Hlen.
  - intros Ha Hover. rewrite (bytes_ascii t) by (by apply truncated_text_ascii).
    subst t. rewrite truncated_text_length by lia.
    destruct (half_pos limit Hl). rewrite (bytes_ascii content Ha) in Hover. lia.
Qed.

(** X3.  Over the limit and with at least [2 * floor(limit/2)] code units,
    as every over-limit ASCII content has: the content is a head, a
    non-overlapping tail and what lies between them, and the returned
    text is the head, the marker and the tail. *)
Theorem truncation_drops_the_middle (content : jsstring) (limit : Z) :
  2 <= limit -> limit < bytes content -> 2 * (limit / 2) <= len content ->
  exists head middle tail,
    content = head ++ middle ++ tail /\
    len head = limit / 2 /\ len tail = limit / 2 /\
    maybeTruncateContent content limit =
      {| text := head ++ marker ++ tail; truncated := true |}.
Proof.
  intros Hl Hover Hlen. destruct (half_pos limit Hl) as [Hpos _].
  set (h := Z.to_nat (limit / 2)). unfold len in *.
  exists (take h content), (take (length content - 2 * h) (drop h content)),
         (drop (length content - h) content).
  split; [|split; [|split]].
  - rewrite <- (take_drop h content) at 1. f_equal.
    rewrite <- (take_drop (length content - 2 * h) (drop h content)) at 1. f_equal.
    rewrite drop_drop. f_equal. lia.
  - rewrite length_take. lia.
  - rewrite length_drop. lia.
  - rewrite maybeTruncateContent_meets_spec by assumption.
    unfold TruncatorSpec.truncate_spec.
    destruct (Z.leb_spec (bytes content) limit); [lia | reflexivity].
Qed.

(** X4.  Over the limit in bytes but with no more than [floor(limit/2)] code
    units, as a short content of three-byte characters can be: head and
    tail are both the whole content, which comes back twice, around the
    marker. *)
Theorem truncation_doubles_short_content (content : jsstring) (limit : Z) :
  limit < bytes content -> len content <= limit / 2 ->
  maybeTruncateContent content limit =
    {| text := content ++ marker ++ content; truncated := true |}.
Proof.
  intros Hover Hshort.
  pose proof (bytes_bounds content) as Hc.
  destruct (Z.le_gt_cases 2 limit) as [Hl|Hsmall].
  2:{ assert (limit / 2 <= 0).
      { destruct (Z.le_gt_cases 0 limit).
        - rewrite Z.div_small by lia. lia.
        - assert (limit / 2 < 0) by (apply Z.div_lt_upper_bound; lia). lia. }
      assert (content = []) as ->
        by (destruct content; [reflexivity | unfold len in *; simpl in *; lia]).
      rewrite maybeTruncateContent_half_zero by lia. by rewrite app_nil_r. }
  rewrite maybeTruncateContent_meets_spec by assumption.
  unfold TruncatorSpec.truncate_spec, TruncatorSpec.first_chars, TruncatorSpec.last_chars.
  destruct (Z.leb_spec (bytes content) limit); [lia|].
  unfold len in Hshort.
  rewrite take_ge by lia.
  replace (length content - Z.to_nat (limit / 2))%nat with 0%nat by lia.
  by rewrite drop_0.
Qed.

Lemma truncated_text_is_bounded_witness :
  let t := text (maybeTruncateContent (js "abcdef") 4) in
  len t <= 4 + 51 /\
  bytes t <= 3 * (4 + 51) /\
  (is_ascii (js "abcdef") -> bytes t <= 4 + 51) /\
  (is_ascii (js "abcdef") -> 4 < bytes (js "abcdef") -> bytes t = 2 * (4 / 2) + 51).
Proof. apply (truncated_text_is_bounded (js "abcdef") 4). lia. Defined.

Lemma truncation_drops_the_middle_witness :
  exists head middle tail,
    js "abcdef" = head ++ middle ++ tail /\
    len head = 4 / 2 /\ len tail = 4 / 2 /\
    maybeTruncateContent (js "abcdef") 4 =
      {| text := head ++ marker ++ tail; truncated := true |}.
Proof.
  apply (truncation_drops_the_middle (js "abcdef") 4); vm_compute; congruence.
Defined.

(** Two characters of three bytes each against a limit of five bytes. *)
Lemma truncation_doubles_short_content_witness :
  maybeTruncateContent [0x4E2D; 0x6587]%N 5 =
    {| text := [0x4E2D; 0x6587]%N ++ marker ++ [0x4E2D; 0x6587]%N; truncated := true |}.
Proof.
  apply (truncation_doubles_short_content [0x4E2D; 0x6587]%N 5); vm_compute; congruence.
Defined.

(** ** The budgeter picks the longest prefix that fits *)

Lemma sum_bytes_nonneg (files : list File) : 0 <= sum_bytes files.
Proof.
  induction files as [|f files IH]; simpl; [lia|].
  pose proof (bytes_bounds (content f)) as Hl.
  unfold len in Hl. lia.
Qed.

Lemma sum_bytes_app (xs ys : list File) :
  sum_bytes (xs ++ ys) = sum_bytes xs + sum_bytes ys.
Proof. induction xs as [|x xs IH]; simpl; lia. Qed.

Lemma sum_bytes_take_le (files : list File) (m : nat) :
  sum_bytes (take m files) <= sum_bytes files.
Proof.
  rewrite <- (take_drop m files) at 2. rewrite sum_bytes_app.
  pose proof (sum_bytes_nonneg (drop m files)). lia.
Qed.

Lemma sum_bytes_take_mono (files : list File) (m k : nat) :
  (m <= k)%nat -> sum_bytes (take m files) <= sum_bytes (take k files).
Proof.
  intros Hmk. replace (take m files) with (take m (take k files))
    by (rewrite take_take; f_equal; lia).
  apply sum_bytes_take_le.
Qed.

Lemma sum_bytes_take_S (files : list File) (n : nat) (f : File) :
  files !! n = Some f ->
  sum_bytes (take (S n) files) = sum_bytes (take n files) + bytes (content f).
Proof.
  intros Hf. rewrite (take_S_r _ _ _ Hf), sum_bytes_app. simpl. lia.
Qed.

(** There is one length at which a prefix fits and the next file does
    not. *)
Lemma fitting_prefix_unique (files : list File) (n k : nat) :
  (n <= length files)%nat -> (k <= length files)%nat ->
  sum_bytes (take n files) <= MAX_TOTAL_BYTES ->
  sum_bytes (take k files) <= MAX_TOTAL_BYTES ->
  (forall f, files !! n = Some f ->
     sum_bytes (take n files) + bytes (content f) > MAX_TOTAL_BYTES) ->
  (forall f, files !! k = Some f ->
     sum_bytes (take k files) + bytes (content f) > MAX_TOTAL_BYTES) ->
  n = k.
Proof.
  intros Hn Hk Hfn Hfk Hnn Hnk.
  destruct (Nat.lt_trichotomy n k) as [Hlt|[?|Hgt]]; [|assumption|].
  - destruct (lookup_lt_is_Some_2 files n) as [f Hf]; [lia|].
    specialize (Hnn f Hf).
    pose proof (sum_bytes_take_mono files (S n) k ltac:(lia)) as Hm.
    rewrite (sum_bytes_take_S _ _ _ Hf) in Hm. lia.
  - destruct (lookup_lt_is_Some_2 files k) as [f Hf]; [lia|].
    specialize (Hnk f Hf).
    pose proof (sum_bytes_take_mono files (S k) n ltac:(lia)) as Hm.
    rewrite (sum_bytes_take_S _ _ _ Hf) in Hm. lia.
Qed.

(** X5.  The bundle is the longest prefix of the files whose sizes sum to at
    most [MAX_TOTAL_BYTES]: a prefix of [m] files fits the cap exactly
    when [m] is at most the number of files included.  So when all the
    files together fit, all are included and the budgeter leaves the
    flag as it was; otherwise it raises the flag. *)
Theorem budget_takes_longest_fitting_prefix (files : list File) (flag : bool) :
  let '(total, bounded, flag') := budget_loop files 0 [] flag in
  (forall m, (m <= length files)%nat ->
     (sum_bytes (take m files) <= MAX_TOTAL_BYTES <-> (m <= length bounded)%nat)) /\
  (sum_bytes files <= MAX_TOTAL_BYTES <-> bounded = files) /\
  flag' = flag || negb (sum_bytes files <=? MAX_TOTAL_BYTES).
Proof.
  destruct (budget_loop_spec files 0 [] flag) as (n & Hn & Heq & Hcap & Hnext).
  rewrite Heq. cbn [app Z.add].
  assert (Hfit : sum_bytes (take n files) <= MAX_TOTAL_BYTES)
    by (apply Hcap; unfold MAX_TOTAL_BYTES; lia).
  rewrite length_take, Nat.min_l by lia.
  assert (Hlong : forall m, (m <= length files)%nat ->
    (sum_bytes (take m files) <= MAX_TOTAL_BYTES <-> (m <= n)%nat)).
  { intros m Hm. split.
    - intros Hsum. destruct (Nat.le_gt_cases m n) as [|Hgt]; [assumption|].
      destruct (lookup_lt_is_Some_2 files n) as [f Hf]; [lia|].
      specialize (Hnext f Hf). simpl in Hnext.
      pose proof (sum_bytes_take_mono files (S n) m ltac:(lia)) as Hmono.
      rewrite (sum_bytes_take_S _ _ _ Hf) in Hmono. lia.
    - intros Hmn. pose proof (sum_bytes_take_mono files m n Hmn). lia. }
  assert (Hall : sum_bytes files <= MAX_TOTAL_BYTES <-> n = length files).
  { specialize (Hlong (length files) ltac:(lia)).
    rewrite firstn_all in Hlong. rewrite Hlong. lia. }
  split; [exact Hlong|]. split.
  - rewrite Hall. split.
    + intros ->. apply firstn_all.
    + intros Heqf. apply (f_equal length) in Heqf.
      rewrite length_take in Heqf. lia.
  - f_equal. destruct (Z.leb_spec (sum_bytes files) MAX_TOTAL_BYTES) as [Hle|Hgt].
    + apply Hall in Hle. subst n. simpl. apply Nat.ltb_irrefl.
    + simpl. apply Nat.ltb_lt.
      destruct (Nat.eq_dec n (length files)) as [He|]; [|lia].
      apply Hall in He. lia.
Qed.
End TruncatorFacts.

(* ===================================================================== *)
(** * More on the analyze route *)
(* ===================================================================== *)

Module PromptFacts.
Import JS JSFacts Analyze AnalyzeMoreSpec.

Lemma includes_occurrence (s p : jsstring) :
  includes s p = true <-> exists a b, s = a ++ p ++ b.
Proof.
  split.
  - induction s as [|c s IH].
    + cbn [includes]. rewrite orb_false_r. intros [b ->]%startsWith_prefix. by exists [], b.
    + cbn [includes]. intros [Hp|Hin]%orb_true_iff.
      * apply startsWith_prefix in Hp as [b ->]. by exists [], b.
      * destruct (IH Hin) as (a & b & ->). by exists (c :: a), b.
  - intros (a & b & ->). apply includes_app.
Qed.

Lemma join_around (sep : jsstring) (xs ys : list jsstring) (x : jsstring) :
  exists a b, join sep (xs ++ x :: ys) = a ++ x ++ b.
Proof.
  induction xs as [|y xs (a & b & IH)].
  - destruct ys as [|y ys].
    + exists [], []. simpl. by rewrite app_nil_r.
    + exists [], (sep ++ join sep (y :: ys)). reflexivity.
  - exists (y ++ sep ++ a), b.
    change (join sep ((y :: xs) ++ x :: ys)) with (join sep (y :: (xs ++ x :: ys))).
    destruct (xs ++ x :: ys) as [|z zs] eqn:E; [by destruct xs|].
    change (join sep (y :: z :: zs)) with (y ++ sep ++ join sep (z :: zs)).
    rewrite IH. by rewrite <- !app_assoc.
Qed.

(** X9.  The prompt starts with the instruction header and holds, for every
    file of the bundle, the section of the file: the line
    "===== FILE: <path> =====", the content, and a line end. *)
Theorem prompt_holds_every_bundled_file (bounded : list File) (f : File) :
  f ∈ bounded ->
  let prompt := header ++ [LF] ++ render_bundle bounded in
  startsWith prompt header = true /\
  includes prompt (js "===== FILE: " ++ path f ++ js " =====" ++ [LF]
                     ++ content f ++ [LF]) = true.
Proof.
  intros Hin prompt. split.
  - apply startsWith_prefix. by eexists.
  - apply list_elem_of_split in Hin as (l1 & l2 & ->).
    subst prompt. unfold render_bundle. rewrite List.map_app. cbn [List.map].
    destruct (join_around [LF] (List.map render_file l1) (List.map render_file l2)
                (render_file f)) as (a & b & ->).
    apply includes_occurrence. exists (header ++ [LF] ++ a), b.
    unfold render_file. by rewrite <- !app_assoc.
Qed.

Lemma prompt_holds_every_bundled_file_witness :
  let f := {| path := js "a.ts"; content := js "let x = 1" |} in
  let g := {| path := js "b.ts"; content := js "let y = 2" |} in
  let prompt := header ++ [LF] ++ render_bundle [f; g] in
  startsWith prompt header = true /\
  includes prompt (js "===== FILE: " ++ path g ++ js " =====" ++ [LF]
                     ++ content g ++ [LF]) = true.
Proof.
  intros f g. apply (prompt_holds_every_bundled_file [f; g] g).
  apply elem_of_cons. right. apply elem_of_cons. by left.
Defined.

End PromptFacts.

Module AnalyzeRouteMore.
Import JS JSFacts Analyze AnalyzeSpec AnalyzeFacts AnalyzeRouteFacts AnalyzeMoreSpec TruncatorFacts.

Section Route.
Context `{Platform}.

Lemma POST_on_error req : POST req = try_catch (POST_try req) on_error.
Proof. reflexivity. Qed.

Lemma POST_snippet_unfold files w :
  POST (Snippet files) w =
    try_catch
      (budget_and_review
         (List.map fst (List.map snippet_file (take 50 (default [] files))))
         (existsb snd (List.map snippet_file (take 50 (default [] files)))))
      on_error w.
Proof. rewrite POST_on_error. unfold POST_try. by rewrite first_fifty_slice. Qed.

Lemma POST_github_unfold owner repo ref paths w :
  POST (Github owner repo ref paths) w =
    let sel := take 50 (default [] paths) in
    match fetch_all owner repo ref sel w with
    | (Ok contents, w1) =>
        try_catch
          (budget_and_review (List.map per_file (zip sel contents))
             (existsb (fun c => truncated (maybeTruncateContent c MAX_FILE_BYTES)) contents))
          on_error w1
    | (Throw e, w1) => on_error e w1
    end.
Proof.
  rewrite POST_on_error. unfold POST_try. rewrite first_fifty_slice. cbv zeta.
  unfold try_catch at 1. unfold bind. rewrite fetch_loop_fetch_all.
  destruct (fetch_all owner repo ref _ w) as [[contents|e] w1]; reflexivity.
Qed.

(** What the last stage answers: a review of [n] of the files, or the
    error of the model call. *)
Lemma budget_and_review_answer files flag w :
  exists (n : nat) out m,
    generate_step (prompt_of (take n files)) (net w) = (out, m) /\
    (n <= length files)%nat /\
    take n files = bundle_of files /\
    0 <= sum_bytes (take n files) <= MAX_TOTAL_BYTES /\
    (forall f, files !! n = Some f ->
       sum_bytes (take n files) + bytes (content f) > MAX_TOTAL_BYTES) /\
    try_catch (budget_and_review files flag) on_error w =
      (Ok match out with
          | Ok text =>
              {| status := 200;
                 body := Review text (flag || (n <? length files)%nat)
                           (sum_bytes (take n files)) (Z.of_nat n) |}
          | Throw e =>
              {| status := 400;
                 body := Failure (message_or e (js "Failed to analyze")) |}
          end,
       {| net := m; trace := trace w ++ [EvGenerate (prompt_of (take n files))] |}).
Proof.
  destruct (budget_and_review_run files flag w) as (n & Hn & Hcap & Hnext & Heq).
  destruct (generate_step (prompt_of (take n files)) (net w)) as [out m] eqn:Hgen.
  exists n, out, m. split; [exact Hgen|]. split; [exact Hn|]. split.
  { unfold bundle_of.
    destruct (budget_loop_spec files 0 [] false) as (k & Hk & Hbl & Hkcap & Hknext).
    rewrite Hbl. cbn [fst snd app]. f_equal.
    apply (fitting_prefix_unique files n k); try assumption.
    apply Hkcap. unfold MAX_TOTAL_BYTES. lia. }
  split; [split; [apply sum_bytes_nonneg | exact Hcap]|].
  split; [exact Hnext|].
  unfold try_catch. rewrite Heq. cbv zeta. fold (prompt_of (take n files)).
  rewrite Hgen. by destruct out.
Qed.

Lemma on_error_message message : message_or message (js "Failed to analyze") <> [].
Proof. unfold message_or. by destruct message. Qed.

(** The files a request puts before the budgeter are at most 50 and at
    most as many as the request carries. *)
Lemma snippet_files_length files :
  length (List.map fst (List.map snippet_file (take 50 (default [] files))))
    = Nat.min 50 (request_size (Snippet files)).
Proof. by rewrite !List.length_map, length_take. Qed.

Lemma github_files_length owner repo ref paths contents :
  length contents = length (take 50 (default [] paths)) ->
  length (List.map per_file (zip (take 50 (default [] paths)) contents))
    = Nat.min 50 (request_size (Github owner repo ref paths)).
Proof.
  intros Hlen. rewrite List.length_map, length_zip, Hlen, Nat.min_id, length_take.
  reflexivity.
Qed.

(** Every file before the budgeter has been through the per-file limit. *)
Lemma snippet_files_per_file_all files :
  Forall (fun f => bytes (content f) <= 120153)
    (List.map fst (List.map snippet_file (take 50 (default [] files)))).
Proof.
  rewrite List.map_map. apply Forall_forall. intros f [sf [<- _]]%list_elem_of_In%in_map_iff.
  cbn [fst snippet_file content]. apply per_file_limit_bound.
Qed.

Lemma per_file_all raws :
  Forall (fun f => bytes (content f) <= 120153) (List.map per_file raws).
Proof.
  apply Forall_forall. intros f [pc [<- _]]%list_elem_of_In%in_map_iff.
  cbn [per_file content]. apply per_file_limit_bound.
Qed.

(** The shape of what the last stage answers, for files that have been
    through the per-file limit. *)
Lemma budget_and_review_shape files flag w (size : nat) :
  length files = Nat.min 50 size ->
  Forall (fun f => bytes (content f) <= 120153) files ->
  exists resp w',
    try_catch (budget_and_review files flag) on_error w = (Ok resp, w') /\
    ((status resp = 200 /\
      exists txt tr tot (n : nat),
        body resp = Review txt tr tot (Z.of_nat n) /\
        (n <= 50)%nat /\ (n <= size)%nat /\ ((0 < size)%nat -> (1 <= n)%nat) /\
        0 <= tot <= 200000) \/
     (status resp = 400 /\ exists message, body resp = Failure message /\ message <> [])).
Proof.
  intros Hlen Hsmall.
  destruct (budget_and_review_answer files flag w)
    as (n & out & m & _ & Hn & _ & Hsum & Hnext & Hrun).
  rewrite Hrun. eexists _, _. split; [reflexivity|].
  destruct out as [text|e]; [left | right]; cbn [status body].
  - split; [reflexivity|]. eexists _, _, _, n. split; [reflexivity|].
    unfold MAX_TOTAL_BYTES in Hsum.
    split; [lia|]. split; [lia|]. split; [|lia].
    intros Hsize. destruct n as [|n]; [|lia]. exfalso.
    destruct files as [|f files]; [cbn [length] in Hlen; lia|].
    specialize (Hnext f eq_refl). apply Forall_cons in Hsmall as [Hf _].
    simpl in Hnext. unfold MAX_TOTAL_BYTES in Hnext. lia.
  - split; [reflexivity|]. eexists. split; [reflexivity | apply on_error_message].
Qed.

(** From the [try] on, a request read at its type is answered, in one
    of two shapes: status 200 with a review that counts at most 50
    files and no more than were sent, at least one if any was sent, and
    between 0 and 200,000 bytes; or status 400 with an error message
    that is not empty. *)
Lemma POST_answer_shape (req : AnalyzeBody) w :
  exists resp w',
    POST req w = (Ok resp, w') /\
    ((status resp = 200 /\
      exists txt tr tot (n : nat),
        body resp = Review txt tr tot (Z.of_nat n) /\
        (n <= 50)%nat /\ (n <= request_size req)%nat /\
        ((0 < request_size req)%nat -> (1 <= n)%nat) /\
        0 <= tot <= 200000) \/
     (status resp = 400 /\ exists message, body resp = Failure message /\ message <> [])).
Proof.
  destruct req as [files|owner repo ref paths|].
  - rewrite POST_snippet_unfold.
    apply budget_and_review_shape;
      [apply snippet_files_length | apply snippet_files_per_file_all].
  - rewrite POST_github_unfold. cbv zeta.
    destruct (fetch_all owner repo ref _ w) as [[contents|e] w1] eqn:Hall.
    + apply budget_and_review_shape; [|apply per_file_all].
      apply (github_files_length owner repo ref).
      by eapply fetch_all_length.
    + eexists _, _. split; [reflexivity|]. right. cbn [status body].
      split; [reflexivity|]. eexists. split; [reflexivity | apply on_error_message].
  - eexists _, _. split; [reflexivity|]. right. cbn [status body].
    split; [reflexivity|]. eexists. split; [reflexivity | discriminate].
Qed.

(** X6.  The analyze route throws exactly when reading the request
    body rejects, which line 82 does outside the [try]: it throws that
    error, without a response and without a call to the outside.  Once
    the body is read, the JSON value [null] is answered with status
    400, and a body of the type [AnalyzeBody] with status 200 and a
    review that counts at most 50 files and no more than were sent, at
    least one if any was sent, and between 0 and 200,000 bytes, or with
    status 400; every status 400 comes with an error message that is
    not empty. *)
Theorem analyze_route_throws_only_on_unreadable_body
    (null_message : jsstring) (json : Result ReadBody) w :
  match json with
  | Throw e => POST_of_request null_message json w = (Throw e, w)
  | Ok read =>
      exists resp w',
        POST_of_request null_message json w = (Ok resp, w') /\
        ((status resp = 200 /\
          exists req txt tr tot (n : nat),
            read = TypedBody req /\
            body resp = Review txt tr tot (Z.of_nat n) /\
            (n <= 50)%nat /\ (n <= request_size req)%nat /\
            ((0 < request_size req)%nat -> (1 <= n)%nat) /\
            0 <= tot <= 200000) \/
         (status resp = 400 /\
          exists message, body resp = Failure message /\ message <> []))
  end.
Proof.
  destruct json as [[|req]|e]; [| |reflexivity].
  - eexists _, _. split; [reflexivity|]. right. cbn [status body].
    split; [reflexivity|]. eexists. split; [reflexivity | apply on_error_message].
  - destruct (POST_answer_shape req w) as (resp & w' & Hpost & Hshape).
    exists resp, w'. split; [exact Hpost|].
    destruct Hshape as [(Hst & txt & tr & tot & n & Hrest)|Hfail]; [left | by right].
    split; [exact Hst|]. by exists req, txt, tr, tot, n.
Qed.

(** X7.  A request without files or paths still goes to the model, with a
    prompt that is the header alone; if the model answers, the review
    counts no file and no byte and is not flagged as truncated. *)
Theorem empty_request_still_asks_the_model (req : AnalyzeBody) w :
  request_size req = 0%nat -> req <> OtherMode ->
  let prompt := header ++ [LF] in
  let w' m := {| net := m; trace := trace w ++ [EvGenerate prompt] |} in
  POST req w =
    match generate_step prompt (net w) with
    | (Ok text, m) =>
        (Ok {| status := 200; body := Review text false 0 0 |}, w' m)
    | (Throw e, m) =>
        (Ok {| status := 400;
               body := Failure (message_or e (js "Failed to analyze")) |}, w' m)
    end.
Proof.
  intros Hsize Hmode. cbv zeta.
  assert (Hrun : forall w0,
    try_catch (budget_and_review [] false) on_error w0 =
      match generate_step (header ++ [LF]) (net w0) with
      | (Ok text, m) =>
          (Ok {| status := 200; body := Review text false 0 0 |},
           {| net := m; trace := trace w0 ++ [EvGenerate (header ++ [LF])] |})
      | (Throw e, m) =>
          (Ok {| status := 400;
                 body := Failure (message_or e (js "Failed to analyze")) |},
           {| net := m; trace := trace w0 ++ [EvGenerate (header ++ [LF])] |})
      end).
  { intros w0. unfold try_catch, budget_and_review, bind, generateContent, ret, on_error.
    cbn [budget_loop render_bundle List.map join length Z.of_nat].
    destruct (generate_step (header ++ [LF] ++ []) (net w0)) as [[text|e] m] eqn:Hgen;
      rewrite app_nil_r in Hgen; rewrite Hgen, ?app_nil_r; reflexivity. }
  destruct req as [files|owner repo ref paths|]; [| |done].
  - rewrite POST_snippet_unfold. simpl in Hsize.
    apply length_zero_iff_nil in Hsize. rewrite Hsize. apply Hrun.
  - rewrite POST_github_unfold. simpl in Hsize.
    apply length_zero_iff_nil in Hsize. rewrite Hsize. cbn. apply Hrun.
Qed.

(** X8.  When the model call throws, a snippet request is answered with
    status 400 and the message thrown, or "Failed to analyze" when that
    message is empty, after the one call to the model. *)
Theorem model_failure_is_reported files w e m :
  let bundle := bundle_of (List.map fst (List.map snippet_file
                                           (take 50 (default [] files)))) in
  generate_step (prompt_of bundle) (net w) = (Throw e, m) ->
  POST (Snippet files) w =
    (Ok {| status := 400;
           body := Failure (if truthy e then e else js "Failed to analyze") |},
     {| net := m; trace := trace w ++ [EvGenerate (prompt_of bundle)] |}).
Proof.
  intros bundle Hgen. rewrite POST_snippet_unfold.
  match goal with |- try_catch (budget_and_review ?fs ?fl) _ _ = _ =>
    destruct (budget_and_review_answer fs fl w)
      as (n & out & m' & Hgen' & _ & Hbundle & _ & _ & Hrun) end.
  rewrite Hrun. fold bundle in Hbundle. rewrite Hbundle in *.
  rewrite Hgen in Hgen'. by injection Hgen' as <- <-.
Qed.

(** ** What [ghGetContent] returns *)

(** X10.  When the contents endpoint answers with a non-empty [content] in
    base64, [ghGetContent] returns its decoding after that one request
    and never asks the raw endpoint. *)
Theorem ghGetContent_decodes_base64 owner repo p ref w epath eref res n json c :
  encodeURIComponent p = Ok epath ->
  encodeURIComponent ref = Ok eref ->
  let rq := {| req_url := contents_url owner repo epath eref;
               req_headers := gh_headers |} in
  fetch_step rq (net w) = (Ok res, n) ->
  res_ok res = true ->
  res_json res = Ok json ->
  json_content (as_ContentJson json) = Some c -> c <> [] ->
  json_encoding (as_ContentJson json) = Some (js "base64") ->
  ghGetContent owner repo p ref w =
    (Ok (base64_to_utf8 c), {| net := n; trace := trace w ++ [EvFetch rq] |}).
Proof.
  intros Hp Hr rq Hstep Hok Hjson Hc Hne Henc.
  rewrite ghGetContent_unfold. unfold ghGetContent_run.
  rewrite Hp, Hr. cbv zeta. fold rq. rewrite Hstep, Hok, Hjson.
  unfold is_base64_content. rewrite Hc, Henc, string_eqb_refl.
  destruct c; [done | reflexivity].
Qed.

(** X11.  When the contents endpoint answers with success but without usable
    base64 content (no [content], an empty one as for an empty file, or
    another [encoding]), [ghGetContent] asks the raw endpoint next and
    returns its text, or throws an error that names the path when that
    answer is not a success. *)
Theorem ghGetContent_falls_back_to_raw owner repo p ref w epath eref res n json rawRes n' :
  encodeURIComponent p = Ok epath ->
  encodeURIComponent ref = Ok eref ->
  let rq := {| req_url := contents_url owner repo epath eref;
               req_headers := gh_headers |} in
  let rawRq := {| req_url := raw_url owner repo ref p; req_headers := gh_headers |} in
  fetch_step rq (net w) = (Ok res, n) ->
  res_ok res = true ->
  res_json res = Ok json ->
  json_content (as_ContentJson json) = None \/
  json_content (as_ContentJson json) = Some [] \/
  json_encoding (as_ContentJson json) <> Some (js "base64") ->
  fetch_step rawRq n = (Ok rawRes, n') ->
  ghGetContent owner repo p ref w =
    (if res_ok rawRes then res_text rawRes
     else Throw (js "Failed to fetch raw content for " ++ p),
     {| net := n'; trace := trace w ++ [EvFetch rq; EvFetch rawRq] |}).
Proof.
  intros Hp Hr rq rawRq Hstep Hok Hjson Hnot Hraw.
  rewrite ghGetContent_unfold. unfold ghGetContent_run.
  rewrite Hp, Hr. cbv zeta. fold rq rawRq. rewrite Hstep, Hok, Hjson.
  assert (Hb64 : is_base64_content (as_ContentJson json) = false).
  { unfold is_base64_content. destruct Hnot as [-> | [-> | Hne]]; [reflexivity| |].
    - by destruct (json_encoding _).
    - destruct (json_content _) as [c|]; [|reflexivity].
      destruct (json_encoding _) as [e|]; [|reflexivity].
      apply andb_false_iff. right. apply string_eqb_neq. congruence. }
  rewrite Hb64, Hraw. cbn [trace]. rewrite <- app_assoc.
  by destruct (res_ok rawRes).
Qed.

(** X12.  When the contents endpoint answers one of the first 50 paths with a
    non-success response, after the paths before it were fetched, the
    request is answered with status 400 and the message
    "GitHub content error <status>: <body>", the body being empty when
    it cannot be read; the raw endpoint is not asked. *)
Theorem content_error_is_reported owner repo ref paths w pre p post contents w1
    epath eref res n :
  take 50 (default [] paths) = pre ++ p :: post ->
  fetch_all owner repo ref pre w = (Ok contents, w1) ->
  encodeURIComponent p = Ok epath ->
  encodeURIComponent ref = Ok eref ->
  let rq := {| req_url := contents_url owner repo epath eref;
               req_headers := gh_headers |} in
  fetch_step rq (net w1) = (Ok res, n) ->
  res_ok res = false ->
  POST (Github owner repo ref paths) w =
    (Ok {| status := 400;
           body := Failure (js "GitHub content error " ++ number_to_string (res_status res)
                              ++ js ": " ++ text_or_empty res) |},
     {| net := n; trace := trace w1 ++ [EvFetch rq] |}).
Proof.
  intros Hsel Hpre Hp Hr rq Hstep Hok.
  assert (Hget : ghGetContent owner repo p ref w1 =
    (Throw (js "GitHub content error " ++ number_to_string (res_status res)
              ++ js ": " ++ text_or_empty res),
     {| net := n; trace := trace w1 ++ [EvFetch rq] |})).
  { rewrite ghGetContent_unfold. unfold ghGetContent_run.
    rewrite Hp, Hr. cbv zeta. fold rq. by rewrite Hstep, Hok. }
  destruct (thrown_fetch_aborts_request _ _ _ _ _ _ _ _ _ _ _ _ Hsel Hpre Hget)
    as (Hpost & _).
  exact Hpost.
Qed.

(** ** The headers of the requests *)

Lemma ghGetContent_carries_headers owner repo p ref w res w' :
  ghGetContent owner repo p ref w = (res, w') ->
  exists evs, trace w' = trace w ++ evs /\ Forall carries_headers evs.
Proof.
  rewrite ghGetContent_unfold. unfold ghGetContent_run.
  assert (H0 : exists evs, trace w = trace w ++ evs /\ Forall carries_headers evs)
    by (exists []; by rewrite app_nil_r).
  destruct (encodeURIComponent p) as [epath|e]; [|intros [= <- <-]; exact H0].
  destruct (encodeURIComponent ref) as [eref|e]; [|intros [= <- <-]; exact H0].
  cbv zeta.
  set (rq1 := {| req_url := contents_url owner repo epath eref; req_headers := gh_headers |}).
  set (rq2 := {| req_url := raw_url owner repo ref p; req_headers := gh_headers |}).
  assert (H1 : forall w1 : World, trace w1 = trace w ++ [EvFetch rq1] ->
    exists evs, trace w1 = trace w ++ evs /\ Forall carries_headers evs).
  { intros w1 ->. exists [EvFetch rq1]. split; [reflexivity|]. by repeat constructor. }
  assert (H2 : forall w2 : World, trace w2 = (trace w ++ [EvFetch rq1]) ++ [EvFetch rq2] ->
    exists evs, trace w2 = trace w ++ evs /\ Forall carries_headers evs).
  { intros w2 ->. exists [EvFetch rq1; EvFetch rq2]. rewrite <- app_assoc.
    split; [reflexivity|]. by repeat constructor. }
  destruct (fetch_step rq1 (net w)) as [[res1|e] n1];
    [|intros [= <- <-]; by apply H1].
  destruct (res_ok res1); [|intros [= <- <-]; by apply H1].
  destruct (res_json res1); [|intros [= <- <-]; by apply H1].
  destruct (is_base64_content _); [intros [= <- <-]; by apply H1|].
  destruct (fetch_step rq2 n1) as [[res2|e] n2];
    [|intros [= <- <-]; by apply H2].
  destruct (res_ok res2); intros [= <- <-]; by apply H2.
Qed.

Lemma fetch_all_carries_headers owner repo ref paths :
  forall w res w',
  fetch_all owner repo ref paths w = (res, w') ->
  exists evs, trace w' = trace w ++ evs /\ Forall carries_headers evs.
Proof.
  induction paths as [|p rest IH]; intros w res w'; simpl.
  - intros [= <- <-]. exists []. by rewrite app_nil_r.
  - destruct (ghGetContent owner repo p ref w) as [[raw|e] w1] eqn:Hget;
      destruct (ghGetContent_carries_headers _ _ _ _ _ _ _ Hget) as (evs & Htr & Hevs).
    + rewrite (bind_ok _ _ _ _ _ Hget).
      destruct (fetch_all owner repo ref rest w1) as [r2 w2] eqn:Hrest.
      destruct (IH _ _ _ Hrest) as (evs2 & Htr2 & Hevs2).
      intros Heq. assert (w' = w2) as ->.
      { destruct r2.
        - rewrite (bind_ok _ _ _ _ _ Hrest) in Heq. unfold ret in Heq. congruence.
        - rewrite (bind_throw _ _ _ _ _ Hrest) in Heq. congruence. }
      exists (evs ++ evs2). rewrite Htr2, Htr, <- app_assoc.
      split; [reflexivity | by apply Forall_app_2].
    + rewrite (bind_throw _ _ _ _ _ Hget). intros [= <- <-]. eauto.
Qed.

(** X13.  Every request the analyze route makes, to the contents endpoint as
    to the raw endpoint, carries the same headers: [Accept], and after
    it [Authorization] with the bearer token exactly when a non-empty
    [GITHUB_TOKEN] is configured. *)
Theorem analyze_requests_carry_headers (req : AnalyzeBody) w :
  (exists evs, trace (POST req w).2 = trace w ++ evs /\ Forall carries_headers evs) /\
  gh_headers =
    (js "Accept", js "application/vnd.github+json") ::
    match GITHUB_TOKEN with
    | Some (c :: token) => [(js "Authorization", js "Bearer " ++ c :: token)]
    | _ => []
    end.
Proof.
  split.
  - assert (Hlast : forall files flag w1 evs,
      trace w1 = trace w ++ evs -> Forall carries_headers evs ->
      exists evs', trace (try_catch (budget_and_review files flag) on_error w1).2
                   = trace w ++ evs' /\ Forall carries_headers evs').
    { intros files flag w1 evs Htr Hevs.
      destruct (budget_and_review_answer files flag w1)
        as (n & out & m & _ & _ & _ & _ & _ & Hrun).
      rewrite Hrun. cbn [snd trace]. rewrite Htr, <- app_assoc. eexists.
      split; [reflexivity|]. apply Forall_app_2; [exact Hevs | by repeat constructor]. }
    destruct req as [files|owner repo ref paths|].
    + rewrite POST_snippet_unfold. apply (Hlast _ _ w []); [by rewrite app_nil_r | constructor].
    + rewrite POST_github_unfold. cbv zeta.
      destruct (fetch_all owner repo ref _ w) as [[contents|e] w1] eqn:Hall;
        destruct (fetch_all_carries_headers _ _ _ _ _ _ _ Hall) as (evs & Htr & Hevs).
      * by apply (Hlast _ _ w1 evs).
      * exists evs. split; [exact Htr | exact Hevs].
    + exists []. split; [by rewrite app_nil_r | constructor].
  - unfold gh_headers. destruct GITHUB_TOKEN as [[|c token]|]; reflexivity.
Qed.
End Route.

(** A snippet request without files on the small platform. *)
Lemma empty_request_still_asks_the_model_witness :
  @POST Toy.toy (Snippet None) Toy.world0 =
    (Ok {| status := 200; body := Review (Some (js "{}")) false 0 0 |},
     @Build_World Toy.toy 1%nat [EvGenerate (header ++ [LF])]).
Proof.
  apply (@empty_request_still_asks_the_model Toy.toy (Snippet None) Toy.world0);
    [reflexivity | discriminate].
Defined.

(** One snippet against a model service that is down. *)
Lemma model_failure_is_reported_witness :
  let files := Some [ {| snippet_path := Some (js "a.ts");
                         snippet_content := Some (js "let x = 1") |} ] in
  let bundle := bundle_of (List.map fst (List.map snippet_file
                                           (take 50 (default [] files)))) in
  @POST Lab.model_down (Snippet files) (Lab.world_at Lab.model_down 0%nat) =
    (Ok {| status := 400; body := Failure (js "API key not valid") |},
     @Build_World Lab.model_down 1%nat [EvGenerate (prompt_of bundle)]).
Proof.
  intros files bundle.
  apply (@model_failure_is_reported Lab.model_down files
           (Lab.world_at Lab.model_down 0%nat) (js "API key not valid") 1%nat).
  reflexivity.
Defined.

(** The one fetchable file of the small platform. *)
Lemma ghGetContent_decodes_base64_witness :
  @ghGetContent Toy.toy (js "o") (js "r") (js "a.ts") (js "main") Toy.world0 =
    (Ok (js "eA=="),
     @Build_World Toy.toy 1%nat
       [EvFetch {| req_url := contents_url (js "o") (js "r") (js "a.ts") (js "main");
                   req_headers := @gh_headers Toy.toy |}]).
Proof.
  eapply (@ghGetContent_decodes_base64 Toy.toy (js "o") (js "r") (js "a.ts") (js "main")
            Toy.world0 (js "a.ts") (js "main"));
    try reflexivity; discriminate.
Defined.

(** An empty file: the contents endpoint answers with an empty
    [content], the raw endpoint is asked, and the empty text is
    returned. *)
Lemma ghGetContent_falls_back_to_raw_witness :
  let P := Lab.platform Lab.empty_file_net (Ok None) None in
  @ghGetContent P (js "o") (js "r") (js "empty.txt") (js "main") (Lab.world_at P 0%nat) =
    (Ok [],
     @Build_World P 2%nat
       [EvFetch {| req_url := contents_url (js "o") (js "r") (js "empty.txt") (js "main");
                   req_headers := @gh_headers P |};
        EvFetch {| req_url := raw_url (js "o") (js "r") (js "main") (js "empty.txt");
                   req_headers := @gh_headers P |}]).
Proof.
  intros P.
  apply (@ghGetContent_falls_back_to_raw P (js "o") (js "r") (js "empty.txt") (js "main")
           (Lab.world_at P 0%nat) (js "empty.txt") (js "main")
           (Toy.ok_json (Toy.JContent {| json_content := Some [];
                                         json_encoding := Some (js "base64") |}))
           1%nat
           (Toy.JContent {| json_content := Some [];
                            json_encoding := Some (js "base64") |})
           (Lab.ok_text []) 2%nat);
    try reflexivity.
  right. left. reflexivity.
Defined.

(** The second of two paths is unknown to the small network. *)
Lemma content_error_is_reported_witness :
  exists w',
    @POST Toy.toy (Github (js "o") (js "r") (js "main")
                     (Some [js "a.ts"; js "missing.ts"])) Toy.world0 =
      (Ok {| status := 400;
             body := Failure (js "GitHub content error 404: Not Found") |}, w').
Proof.
  eexists.
  apply (@content_error_is_reported Toy.toy (js "o") (js "r") (js "main")
           (Some [js "a.ts"; js "missing.ts"]) Toy.world0
           [js "a.ts"] (js "missing.ts") [] [js "eA=="]
           (@Build_World Toy.toy 1%nat
              [EvFetch {| req_url := contents_url (js "o") (js "r") (js "a.ts") (js "main");
                          req_headers := @gh_headers Toy.toy |}])
           (js "missing.ts") (js "main") Toy.not_found 2%nat);
    reflexivity.
Defined.

End AnalyzeRouteMore.

(* ===================================================================== *)
(** * More on the list-files route *)
(* ===================================================================== *)

Module SegmentFacts.
Import JS JSFacts ListFiles ListFilesSpec.

(** ** Splitting and joining *)

Lemma split_nonempty (sep : N) (s : jsstring) : split sep s <> [].
Proof.
  destruct s as [|c s]; simpl; [discriminate|].
  destruct (c =? sep)%N; [discriminate|]. by destruct (split sep s).
Qed.

Lemma split_cons (sep c : N) (s : jsstring) :
  split sep (c :: s) =
    if (c =? sep)%N then [] :: split sep s
    else match split sep s with
         | h :: t => (c :: h) :: t
         | [] => [[c]]
         end.
Proof. reflexivity. Qed.

Lemma split_no_sep (sep : N) (s : jsstring) :
  Forall (fun x => sep ∉ x) (split sep s).
Proof.
  induction s as [|c s IH]; [simpl; constructor; [apply not_elem_of_nil | constructor]|].
  rewrite split_cons. destruct (N.eqb_spec c sep) as [->|Hne].
  - constructor; [apply not_elem_of_nil | exact IH].
  - destruct (split sep s) as [|h t] eqn:E; [by apply split_nonempty in E|].
    apply Forall_cons in IH as [Hh Ht]. constructor; [|exact Ht].
    apply not_elem_of_cons. split; [congruence | exact Hh].
Qed.

Lemma join_cons_cons (sep x y : jsstring) (xs : list jsstring) :
  join sep (x :: y :: xs) = x ++ sep ++ join sep (y :: xs).
Proof. reflexivity. Qed.

(** [s.split(sep).join(sep)] is [s]. *)
Lemma join_split (sep : N) (s : jsstring) : join [sep] (split sep s) = s.
Proof.
  induction s as [|c s IH]; [reflexivity|].
  rewrite split_cons. destruct (N.eqb_spec c sep) as [->|Hne].
  - destruct (split sep s) as [|h t] eqn:E; [by apply split_nonempty in E|].
    rewrite join_cons_cons, IH. reflexivity.
  - destruct (split sep s) as [|h t] eqn:E; [by apply split_nonempty in E|].
    destruct t as [|h' t].
    + simpl in *. by rewrite IH.
    + change (join [sep] ((c :: h) :: h' :: t)) with (c :: join [sep] (h :: h' :: t)).
      by rewrite IH.
Qed.

(** Splitting a string at a separator it does not contain. *)
Lemma split_without_sep (sep : N) (x : jsstring) :
  sep ∉ x -> split sep x = [x].
Proof.
  induction x as [|c x IH]; [reflexivity|].
  intros [Hc Hx]%not_elem_of_cons. rewrite split_cons, IH by assumption.
  destruct (N.eqb_spec c sep); [congruence | reflexivity].
Qed.

Lemma split_app_sep (sep : N) (x rest : jsstring) :
  sep ∉ x -> split sep (x ++ sep :: rest) = x :: split sep rest.
Proof.
  induction x as [|c x IH]; intros Hx.
  - simpl. by rewrite N.eqb_refl.
  - apply not_elem_of_cons in Hx as [Hc Hx].
    change ((c :: x) ++ sep :: rest) with (c :: (x ++ sep :: rest)).
    rewrite split_cons, IH by assumption.
    destruct (N.eqb_spec c sep); [congruence | reflexivity].
Qed.

(** [xs.join(sep).split(sep)] is [xs], for a non-empty [xs] of strings
    without the separator. *)
Lemma split_join (sep : N) (xs : list jsstring) :
  xs <> [] -> Forall (fun x => sep ∉ x) xs -> split sep (join [sep] xs) = xs.
Proof.
  induction xs as [|x xs IH]; [done|]. intros _ [Hx Hxs]%Forall_cons.
  destruct xs as [|y xs].
  - simpl. by apply split_without_sep.
  - rewrite join_cons_cons.
    change ([sep] ++ join [sep] (y :: xs)) with (sep :: join [sep] (y :: xs)).
    rewrite split_app_sep by assumption. by rewrite IH.
Qed.

Lemma segments_spec (pathname s : jsstring) :
  s ∈ segments pathname -> s <> [] /\ SLASH ∉ s.
Proof.
  unfold segments. rewrite list_elem_of_In, filter_In, <- list_elem_of_In.
  intros [Hin Ht]. split; [by destruct s|].
  pose proof (split_no_sep SLASH pathname) as Hall.
  rewrite Forall_forall in Hall. by apply Hall.
Qed.

(** Joining segments with ["/"] and taking the segments of the result
    gives the segments back. *)
Lemma segments_join (xs : list jsstring) :
  Forall (fun x => x <> [] /\ SLASH ∉ x) xs ->
  segments (join [SLASH] xs) = xs.
Proof.
  intros Hxs. destruct xs as [|x xs]; [reflexivity|].
  unfold segments. rewrite split_join; [|done|].
  - induction Hxs as [|y ys [Hy _] _ IH]; [reflexivity|].
    simpl. destruct y; [done|]. simpl. by rewrite IH.
  - eapply Forall_impl; [exact Hxs|]. by intros y [_ ?].
Qed.

End SegmentFacts.

Module ListFilesMore.
Import JS JSFacts ListFiles ListFilesSpec ListFilesFacts SegmentFacts ListFilesMoreSpec.

Lemma last_dot_split (p : jsstring) :
  DOT ∈ p -> exists pre suf, p = pre ++ DOT :: suf /\ DOT ∉ suf.
Proof.
  induction p as [|c p IH]; [by intros ?%elem_of_nil|].
  intros Hin. destruct (decide (DOT ∈ p)) as [Hp|Hp].
  - destruct (IH Hp) as (pre & suf & -> & Hsuf). by exists (c :: pre), suf.
  - apply elem_of_cons in Hin as [<-|Hin]; [|contradiction]. by exists [], p.
Qed.

Lemma ascii_lower_keeps (c : N) (s : jsstring) :
  ascii_lower_unit c = c -> c ∈ s -> c ∈ ascii_lower s.
Proof.
  intros Hc Hin. unfold ascii_lower. rewrite list_elem_of_In in *.
  rewrite <- Hc. by apply in_map.
Qed.

Lemma skipExt_no_slash (e : jsstring) : e ∈ skipExt -> SLASH ∉ e.
Proof.
  unfold skipExt. rewrite elem_of_list_to_set. intros He.
  repeat (apply elem_of_cons in He as [->|He];
          [intros Hin; repeat (apply elem_of_cons in Hin as [Hin|Hin]; [discriminate|]);
           by apply elem_of_nil in Hin|]).
  by apply elem_of_nil in He.
Qed.

Section Route.
Context `{Platform}.

(** ** The extension filter on ASCII paths *)

(** On a path with an ASCII extension the filter is a look-up of the
    lower-cased extension in [skipExt]. *)
Lemma keep_extension_ascii (pre suf : jsstring) :
  DOT ∉ suf -> is_ascii (DOT :: suf) ->
  keep_extension (pre ++ DOT :: suf) =
    negb (bool_decide (ascii_lower (DOT :: suf) ∈ skipExt)).
Proof.
  intros Hsuf Hascii.
  unfold keep_extension. change (js ".") with [DOT].
  unfold lastIndexOf. rewrite lastIndexOf_last_dot by (assumption || lia).
  unfold len. rewrite Z.add_0_l.
  destruct (Z.eqb_spec (Z.of_nat (length pre)) (-1)) as [Hneg|_]; [lia|].
  rewrite slice_from by lia. rewrite Nat2Z.id, drop_app_length.
  by rewrite toLowerCase_ascii.
Qed.

(** X14.  For an ASCII path the extension filter rejects the path exactly
    when its extension is on the denylist up to letter case; every
    other ASCII path is kept. *)
Theorem keep_extension_rejects_only_denylisted (p : jsstring) :
  is_ascii p -> (keep_extension p = false <-> denylisted p).
Proof.
  intros Hascii. split; [|apply keep_extension_denylisted].
  intros Hkeep. destruct (decide (DOT ∈ p)) as [Hdot|Hno].
  2:{ rewrite keep_extension_no_dot in Hkeep by assumption. discriminate. }
  destruct (last_dot_split p Hdot) as (pre & suf & -> & Hsuf).
  assert (Hext : is_ascii (DOT :: suf)).
  { unfold is_ascii in *. by apply Forall_app in Hascii as [_ ?]. }
  rewrite keep_extension_ascii in Hkeep by assumption.
  apply negb_false_iff, bool_decide_eq_true in Hkeep.
  exists pre, suf, (ascii_lower (DOT :: suf)).
  split; [reflexivity|]. split; [exact Hsuf|]. split; [exact Hkeep|].
  unfold same_ignoring_case.
  by destruct (skipExt_ascii_lower _ Hkeep) as [_ ->].
Qed.

(** X15.  The extension is taken from the last ["."] of the whole path, not
    of the file name: an ASCII path whose last ["."] lies in a
    directory name, before a later ["/"], is always kept. *)
Theorem dot_in_directory_is_kept (pre suf : jsstring) :
  is_ascii (pre ++ DOT :: suf) -> (DOT ∉ suf) -> (SLASH ∈ suf) ->
  keep_extension (pre ++ DOT :: suf) = true.
Proof.
  intros Hascii Hsuf Hslash.
  assert (Hext : is_ascii (DOT :: suf)).
  { unfold is_ascii in *. by apply Forall_app in Hascii as [_ ?]. }
  rewrite keep_extension_ascii by assumption.
  apply negb_true_iff, bool_decide_eq_false. intros Hin.
  apply skipExt_no_slash in Hin. apply Hin.
  apply ascii_lower_keeps; [reflexivity|]. apply elem_of_cons. by right.
Qed.

(** ** What the parser returns *)

Lemma parseGitHubUrl_ok_inv url r :
  parseGitHubUrl url = Ok r ->
  exists u owner repo rest,
    URL_new url = Ok u /\ hostname u = js "github.com" /\
    segments (pathname u) = owner :: repo :: rest /\
    r = if is_tree_or_blob ((owner :: repo :: rest) !! 2%nat)
        then {| owner := owner; repo := repo; ref := (owner :: repo :: rest) !! 3%nat;
                path := Some (join (js "/") (drop 4 (owner :: repo :: rest))) |}
        else {| owner := owner; repo := repo; ref := None; path := None |}.
Proof.
  intros Hparse.
  destruct (URL_new url) as [u|e] eqn:Hu.
  2:{ unfold parseGitHubUrl, parseGitHubUrl_try in Hparse. by rewrite Hu in Hparse. }
  destruct (decide (hostname u = js "github.com")) as [Hhost|Hhost].
  2:{ unfold parseGitHubUrl, parseGitHubUrl_try in Hparse. rewrite Hu in Hparse.
      apply string_eqb_neq in Hhost. by rewrite Hhost in Hparse. }
  destruct (segments (pathname u)) as [|owner [|repo rest]] eqn:Hparts.
  1,2: unfold parseGitHubUrl, parseGitHubUrl_try in Hparse;
       by rewrite Hu, Hhost, string_eqb_refl, Hparts in Hparse.
  exists u, owner, repo, rest. repeat split; try assumption.
  rewrite (parseGitHubUrl_parts url u owner repo rest Hu Hhost Hparts) in Hparse.
  destruct (is_tree_or_blob _); by injection Hparse as <-.
Qed.

Lemma parsed_reference_parts_nonempty url r :
  parseGitHubUrl url = Ok r ->
  owner r <> [] /\ repo r <> [] /\ (forall rf, ref r = Some rf -> rf <> [] /\ SLASH ∉ rf).
Proof.
  intros Hparse.
  destruct (parseGitHubUrl_ok_inv url r Hparse)
    as (u & o & rp & rest & _ & _ & Hparts & ->).
  assert (Hseg : forall x, x ∈ o :: rp :: rest -> x <> [] /\ SLASH ∉ x).
  { intros x Hx. apply (segments_spec (pathname u)). by rewrite Hparts. }
  destruct (is_tree_or_blob _); cbn [owner repo ref].
  - split; [apply Hseg; rewrite !elem_of_cons; auto|].
    split; [apply Hseg; rewrite !elem_of_cons; auto|].
    intros rf Hrf. apply Hseg. by eapply list_elem_of_lookup_2.
  - split; [apply Hseg; rewrite !elem_of_cons; auto|].
    split; [apply Hseg; rewrite !elem_of_cons; auto|]. discriminate.
Qed.

(** X16.  Whatever reference the parser returns is well formed: [owner] and
    [repo] are non-empty and without ["/"], and so is [ref] when
    present; [path] is present exactly in the tree/blob form, it is
    empty when there is no [ref], and it is normalised, without a
    leading, trailing or doubled ["/"]: taking its segments and joining
    them gives it back. *)
Theorem parsed_reference_is_well_formed url r :
  parseGitHubUrl url = Ok r ->
  (owner r <> [] /\ SLASH ∉ owner r) /\
  (repo r <> [] /\ SLASH ∉ repo r) /\
  (forall rf, ref r = Some rf -> rf <> [] /\ SLASH ∉ rf) /\
  (forall p, path r = Some p ->
     join (js "/") (segments p) = p /\ (ref r = None -> p = [])) /\
  (is_Some (ref r) -> is_Some (path r)).
Proof.
  intros Hparse.
  destruct (parseGitHubUrl_ok_inv url r Hparse)
    as (u & o & rp & rest & _ & _ & Hparts & ->).
  assert (Hseg : Forall (fun x => x <> [] /\ SLASH ∉ x) (o :: rp :: rest)).
  { apply Forall_forall. intros x Hx. apply (segments_spec (pathname u)).
    by rewrite Hparts. }
  pose proof Hseg as Hseg'.
  apply Forall_cons in Hseg' as [Ho Hseg']. apply Forall_cons in Hseg' as [Hrp Hrest].
  destruct (is_tree_or_blob _); cbn [owner repo ref path].
  - split; [exact Ho|]. split; [exact Hrp|]. split; [|split].
    + intros rf Hrf. rewrite Forall_forall in Hseg. apply Hseg.
      by eapply list_elem_of_lookup_2.
    + intros p [= <-]. change (js "/") with [SLASH]. split.
      * rewrite segments_join; [reflexivity|]. by apply Forall_drop.
      * intros Hnone. apply lookup_ge_None in Hnone.
        rewrite drop_ge by (cbn [length] in *; lia). reflexivity.
    + intros _. by eexists.
  - split; [exact Ho|]. split; [exact Hrp|].
    split; [discriminate|]. split; [discriminate|]. by intros [? ?].
Qed.

(** ** The route, by cases *)

Lemma list_error_message message : message_or message (js "Failed to list files") <> [].
Proof. unfold message_or. by destruct message. Qed.

(** [gh] makes one request, with the headers of [gh_headers]. *)
Lemma gh_cases path w :
  exists res n,
    gh path w =
      (res, {| net := n;
               trace := trace w ++ [EvFetch {| req_url := GH_API ++ path;
                                               req_headers := gh_headers |}] |}).
Proof.
  rewrite gh_unfold. cbv zeta.
  destruct (fetch_step _ (net w)) as [[res|e] n]; [|by eexists _, _].
  destruct (res_ok res); by eexists _, _.
Qed.

(** From the [repoUrl] check on, a request is answered, and in one of
    four ways: refused with no request made (address missing, empty or
    not a reference); stopped after the request for the repository;
    stopped after the requests for the repository and the tree; or the
    listing, after exactly these two requests.  Every failure has
    status 400 and a non-empty message; the requests carry the headers
    of [gh_headers]. *)
Lemma POST_ends_in_one_of_four_ways (repoUrl : option jsstring) w :
  exists resp w' evs,
    POST repoUrl w = (Ok resp, w') /\
    trace w' = trace w ++ evs /\
    outcome repoUrl resp evs.
Proof.
  destruct repoUrl as [[|c url]|].
  1,3: (exists (failure (js "repoUrl is required")), w, []); rewrite app_nil_r;
       (split; [reflexivity|]); (split; [reflexivity|]);
       apply refused; [intros url Hu Hne; by simplify_eq | discriminate].
  rewrite POST_truthy by reflexivity.
  unfold try_catch, POST_try. unfold bind at 1, lift at 1.
  destruct (parseGitHubUrl (c :: url)) as [parsed|e] eqn:Hparse.
  2:{ destruct (parseGitHubUrl_message _ _ Hparse) as [m ->].
      exists (failure (message_or m (js "Invalid URL"))), w, [].
      rewrite app_nil_r. split.
      { unfold ret, failure. by rewrite message_or_idem. }
      split; [reflexivity|]. apply refused.
      - intros url' [= <-] _. exact Hparse.
      - by apply message_or_truthy. }
  cbv zeta. unfold bind at 1.
  fold (repo_path (owner parsed) (repo parsed)).
  destruct (gh_cases (repo_path (owner parsed) (repo parsed)) w) as (res1 & n1 & ->).
  set (w1 := {| net := n1; trace := _ |}).
  assert (Hstop1 : forall e,
    exists resp w' evs,
      ret {| status := 400; body := Failure (message_or e (js "Failed to list files")) |} w1
        = (Ok resp, w') /\
      trace w' = trace w ++ evs /\ outcome (Some (c :: url)) resp evs).
  { intros e. exists (failure (message_or e (js "Failed to list files"))), w1,
      [repo_request parsed].
    split; [reflexivity|]. split; [reflexivity|].
    eapply stopped_after_repo; [reflexivity | exact Hparse | apply list_error_message]. }
  destruct res1 as [j1|e]; [|apply Hstop1].
  unfold bind at 1, lift at 1.
  set (rf := or_else (ref parsed) (default_branch (as_RepoInfo j1))).
  destruct (encodeURIComponent rf) as [eref|e] eqn:Heref; [|apply Hstop1].
  unfold bind. fold (tree_path (owner parsed) (repo parsed) eref).
  destruct (gh_cases (tree_path (owner parsed) (repo parsed) eref) w1)
    as (res2 & n2 & ->).
  set (w2 := {| net := n2; trace := _ |}).
  assert (Htr : trace w2 = trace w ++ [repo_request parsed; tree_request parsed eref]).
  { subst w2 w1. cbn [trace]. by rewrite <- app_assoc. }
  destruct res2 as [j2|e].
  - eexists _, w2, _. split; [reflexivity|]. split; [exact Htr|].
    eapply listed; [reflexivity | exact Hparse | exact Heref].
  - exists (failure (message_or e (js "Failed to list files"))), w2,
      [repo_request parsed; tree_request parsed eref].
    split; [reflexivity|]. split; [exact Htr|].
    eapply stopped_after_tree; [reflexivity | exact Hparse | apply list_error_message].
Qed.

(** X17.  The list-files route throws, without a response and without a
    request, exactly when the request body cannot be read or is the
    JSON value [null]: line 48 reads and destructures it outside the
    [try].  Every other body, its [repoUrl] a string or absent, is
    answered, and in one of four ways:
    refused with no request made (address missing, empty or not a
    reference); stopped after the request for the repository; stopped
    after the requests for the repository and the tree; or the listing,
    after exactly these two requests.  Every failure answered has
    status 400 and a non-empty message; the requests carry the headers
    of [gh_headers]. *)
Theorem list_files_throws_or_ends_in_one_of_four_ways
    (null_message : jsstring) (json : Result ReadListBody) w :
  match json with
  | Throw e => POST_of_request null_message json w = (Throw e, w)
  | Ok NullListBody => POST_of_request null_message json w = (Throw null_message, w)
  | Ok (ListBody repoUrl) =>
      exists resp w' evs,
        POST_of_request null_message json w = (Ok resp, w') /\
        trace w' = trace w ++ evs /\
        outcome repoUrl resp evs
  end.
Proof.
  destruct json as [[|repoUrl]|e]; [reflexivity | | reflexivity].
  apply POST_ends_in_one_of_four_ways.
Qed.

(** X18.  When the repository endpoint answers with a non-success response,
    the request is answered with status 400 and the message
    "GitHub API error <status>: <body>", the body being empty when it
    cannot be read; the tree endpoint is not asked. *)
Theorem repository_error_is_reported url r w res n :
  url <> [] ->
  parseGitHubUrl url = Ok r ->
  fetch_step {| req_url := GH_API ++ repo_path (owner r) (repo r);
                req_headers := gh_headers |} (net w) = (Ok res, n) ->
  res_ok res = false ->
  POST (Some url) w =
    (Ok {| status := 400;
           body := Failure (js "GitHub API error " ++ number_to_string (res_status res)
                              ++ js ": " ++ text_or_empty res) |},
     {| net := n; trace := trace w ++ [repo_request r] |}).
Proof.
  intros Hurl Hparse Hstep Hok.
  rewrite POST_truthy by (by destruct url).
  unfold try_catch, POST_try. unfold bind at 1, lift at 1. rewrite Hparse.
  cbv zeta. unfold bind at 1. fold (repo_path (owner r) (repo r)).
  rewrite gh_unfold. cbv zeta. rewrite Hstep, Hok. reflexivity.
Qed.

(** X19.  The [ref] of a listing is the one of the address when it has one,
    and otherwise the default branch that the repository endpoint
    reported; it is the ref the tree was asked for. *)
Theorem listing_ref_is_from_address_or_default url w resp w' o r rf rp files :
  POST (Some url) w = (Ok resp, w') ->
  body resp = Listing o r rf rp files ->
  exists parsed j1 n1 eref j2,
    parseGitHubUrl url = Ok parsed /\
    gh_returns (repo_path o r) (net w) j1 n1 /\
    rf = match ref parsed with
         | Some from_address => from_address
         | None => default_branch (as_RepoInfo j1)
         end /\
    encodeURIComponent rf = Ok eref /\
    gh_returns (tree_path o r eref) n1 j2 (net w').
Proof.
  intros Hpost Hbody.
  destruct (POST_listing_inv _ _ _ _ _ _ _ _ _ Hpost Hbody)
    as (parsed & j1 & n1 & eref & j2 & Hparse & -> & -> & -> & H1 & -> & Heref & H2 & _).
  exists parsed, j1, n1, eref, j2.
  assert (Hrf : or_else (ref parsed) (default_branch (as_RepoInfo j1)) =
                match ref parsed with
                | Some from_address => from_address
                | None => default_branch (as_RepoInfo j1)
                end).
  { destruct (ref parsed) as [x|] eqn:Hx; [|reflexivity].
    destruct (parsed_reference_parts_nonempty url parsed Hparse) as (_ & _ & Href).
    destruct (Href x Hx). simpl. by destruct x. }
  rewrite <- Hrf. repeat split; assumption.
Qed.

(** X20.  The files of a listing are exactly the paths of the tree that are
    of type blob, lie under the sub-path of the address when it has a
    non-empty one, and pass the extension filter; they come in the
    order of the tree. *)
Theorem listing_is_the_filtered_tree url w resp w' o r rf rp files :
  POST (Some url) w = (Ok resp, w') ->
  body resp = Listing o r rf rp files ->
  exists eref j2 n1,
    encodeURIComponent rf = Ok eref /\
    gh_returns (tree_path o r eref) n1 j2 (net w') /\
    files `sublist_of` List.map entry_path (tree (as_TreeResp j2)) /\
    forall p,
      p ∈ files <->
      (exists e, e ∈ tree (as_TreeResp j2) /\ entry_type e = js "blob" /\ entry_path e = p) /\
      match rp with
      | Some (c :: sub) => with_trailing_slash (c :: sub) `prefix_of` p
      | _ => True
      end /\
      keep_extension p = true.
Proof.
  intros Hpost Hbody.
  destruct (POST_listing_inv _ _ _ _ _ _ _ _ _ Hpost Hbody)
    as (parsed & j1 & n1 & eref & j2 & Hparse & -> & -> & -> & H1 & -> & Heref & H2 & ->).
  exists eref, j2, n1. split; [exact Heref|]. split; [exact H2|]. split.
  - unfold filter_files.
    etransitivity; [apply filter_sublist|].
    etransitivity; [apply subpath_filter_sublist|].
    apply map_sublist, filter_sublist.
  - intros p. rewrite elem_of_filter_files, <- blob_paths_spec.
    destruct (path parsed) as [[|c sub]|].
    + rewrite subpath_filter_empty by auto. tauto.
    + rewrite subpath_filter_nonempty by done.
      rewrite list_elem_of_In, filter_In, <- list_elem_of_In, bool_decide_eq_true. tauto.
    + rewrite subpath_filter_empty by auto. tauto.
Qed.
End Route.

Ltac ascii_literal :=
  unfold is_ascii; vm_compute; repeat (constructor; [reflexivity|]); constructor.

(** A TypeScript source on the small platform: kept, and not on the
    denylist. *)
Lemma keep_extension_rejects_only_denylisted_witness :
  @keep_extension Toy.toy (js "src/a.ts") = false <-> denylisted (js "src/a.ts").
Proof.
  apply (@keep_extension_rejects_only_denylisted Toy.toy (js "src/a.ts")).
  ascii_literal.
Defined.

(** [v1.2/README]: the last ["."] is in the directory name. *)
Lemma dot_in_directory_is_kept_witness :
  @keep_extension Toy.toy (js "v1" ++ DOT :: js "2/README") = true.
Proof.
  apply (@dot_in_directory_is_kept Toy.toy (js "v1") (js "2/README")).
  - ascii_literal.
  - intros Hin. repeat (apply elem_of_cons in Hin as [Hin|Hin]; [discriminate|]).
    by apply elem_of_nil in Hin.
  - apply elem_of_cons. right. apply elem_of_cons. by left.
Defined.

Lemma parsed_reference_is_well_formed_witness :
  let r := {| owner := js "o"; repo := js "r"; ref := Some (js "main");
              path := Some (js "a/b") |} in
  (owner r <> [] /\ SLASH ∉ owner r) /\
  (repo r <> [] /\ SLASH ∉ repo r) /\
  (forall rf, ref r = Some rf -> rf <> [] /\ SLASH ∉ rf) /\
  (forall p, path r = Some p ->
     join (js "/") (segments p) = p /\ (ref r = None -> p = [])) /\
  (is_Some (ref r) -> is_Some (path r)).
Proof.
  intros r.
  apply (@parsed_reference_is_well_formed Toy.toy
           (js "https://github.com/o/r/tree/main/a/b") r).
  reflexivity.
Defined.

(** The repository endpoint answers 500. *)
Lemma repository_error_is_reported_witness :
  @POST Lab.repo_down (Some (js "https://github.com/o/r"))
      (Lab.world_at Lab.repo_down 0%nat) =
    (Ok {| status := 400; body := Failure (js "GitHub API error 500: boom") |},
     @Build_World Lab.repo_down 1%nat
       [@repo_request Lab.repo_down
          {| owner := js "o"; repo := js "r"; ref := None; path := None |}]).
Proof.
  apply (@repository_error_is_reported Lab.repo_down (js "https://github.com/o/r")
           {| owner := js "o"; repo := js "r"; ref := None; path := None |}
           (Lab.world_at Lab.repo_down 0%nat) Lab.server_error 1%nat);
    [discriminate | reflexivity | reflexivity | reflexivity].
Defined.

(** The listing of [src] at [main] on the small platform. *)
Lemma listing_ref_is_from_address_or_default_witness :
  exists parsed j1 n1 eref j2,
    @parseGitHubUrl Toy.toy (js "https://github.com/o/r/tree/main/src") = Ok parsed /\
    @gh_returns Toy.toy (@repo_path (js "o") (js "r")) 0%nat j1 n1 /\
    js "main" = match ref parsed with
                | Some from_address => from_address
                | None => default_branch (@as_RepoInfo Toy.toy j1)
                end /\
    @encodeURIComponent Toy.toy (js "main") = Ok eref /\
    @gh_returns Toy.toy (@tree_path (js "o") (js "r") eref) n1 j2 2%nat.
Proof.
  eapply (@listing_ref_is_from_address_or_default Toy.toy
            (js "https://github.com/o/r/tree/main/src") Toy.world0
            _ (@Build_World Toy.toy 2%nat _));
    [vm_compute; reflexivity | reflexivity].
Defined.

Lemma listing_is_the_filtered_tree_witness :
  exists eref j2 n1,
    @encodeURIComponent Toy.toy (js "main") = Ok eref /\
    @gh_returns Toy.toy (@tree_path (js "o") (js "r") eref) n1 j2 2%nat /\
    [js "src/a.ts"] `sublist_of` List.map entry_path (tree (@as_TreeResp Toy.toy j2)) /\
    forall p,
      p ∈ [js "src/a.ts"] <->
      (exists e, e ∈ tree (@as_TreeResp Toy.toy j2) /\
                 entry_type e = js "blob" /\ entry_path e = p) /\
      with_trailing_slash (js "src") `prefix_of` p /\
      @keep_extension Toy.toy p = true.
Proof.
  eapply (@listing_is_the_filtered_tree Toy.toy
            (js "https://github.com/o/r/tree/main/src") Toy.world0
            _ (@Build_World Toy.toy 2%nat _) (js "o") (js "r") (js "main")
            (Some (js "src")) [js "src/a.ts"]);
    [vm_compute; reflexivity | reflexivity].
Defined.

End ListFilesMore.

(* ===================================================================== *)
(** * The file list of the reviewer component *)
(* ===================================================================== *)

Module ReviewerFacts.
Import JS JSFacts ListFiles ListFilesFacts Reviewer.

Lemma trimStart_blank (s : jsstring) :
  Forall (fun c => is_trimmed_unit c = true) s -> trimStart s = [].
Proof. induction 1 as [|c s Hc _ IH]; cbn [trimStart]; [reflexivity | rewrite Hc; exact IH]. Qed.

Lemma trim_blank (s : jsstring) :
  Forall (fun c => is_trimmed_unit c = true) s -> trim s = [].
Proof. intros Hs. unfold trim. by rewrite (trimStart_blank s) by assumption. Qed.

Lemma trimStart_suffix (s : jsstring) : trimStart s `suffix_of` s.
Proof.
  induction s as [|c s IH]; cbn [trimStart]; [reflexivity|].
  destruct (is_trimmed_unit c); [by apply suffix_cons_r | reflexivity].
Qed.

Lemma trim_ascii (s : jsstring) : is_ascii s -> is_ascii (trim s).
Proof.
  unfold is_ascii, trim. intros Hs.
  assert (Hsuf : forall t : jsstring,
    Forall (fun c => (c < 128)%N) t -> Forall (fun c => (c < 128)%N) (trimStart t)).
  { intros t Ht. destruct (trimStart_suffix t) as [k Hk].
    rewrite Hk in Ht. by apply Forall_app in Ht as [_ ?]. }
  apply Forall_rev, Hsuf, Forall_rev, Hsuf, Hs.
Qed.

Section Component.
Context `{Platform}.

(** X21.  The files shown are an order-preserving selection of the listed
    files; a filter that is empty or all white space shows them all;
    and for ASCII text the filter is a substring search that ignores
    letter case and the white space around the query. *)
Theorem shown_files_are_a_selection o r rf rp (listed : list jsstring) (filter : jsstring) :
  let shown := files (Some (Listing o r rf rp listed)) filter in
  shown `sublist_of` listed /\
  (Forall (fun c => is_trimmed_unit c = true) filter -> shown = listed) /\
  (is_ascii filter -> trim filter <> [] ->
   forall p, is_ascii p ->
     (p ∈ shown <->
      p ∈ listed /\ includes (ascii_lower p) (ascii_lower (trim filter)) = true)).
Proof.
  intros shown. subst shown. unfold files. split; [|split].
  - destruct (negb (truthy (trim filter))); [reflexivity | apply filter_sublist].
  - intros Hblank. by rewrite trim_blank by assumption.
  - intros Hf Hne p Hp. destruct (trim filter) as [|c q] eqn:Hq; [done|].
    cbn [truthy negb]. cbv zeta.
    rewrite list_elem_of_In, filter_In, <- list_elem_of_In.
    rewrite (toLowerCase_ascii p Hp).
    rewrite (toLowerCase_ascii (c :: q)) by (rewrite <- Hq; by apply trim_ascii).
    reflexivity.
Qed.

End Component.

End ReviewerFacts.
